(** * go-app-stager: dependency analysis and staging

    A shallow embedding of the App Engine Go stager (package [main]:
    [analyze], [bundle], [copyTree], [copyFile], [main]) together with the
    properties of its dependency analyzer, bundler and orchestrator.

    The Go standard library ([go/build], [path/filepath], [os], [io/ioutil])
    and the YAML decoder are not part of the program: they are taken as
    parameters, and instantiated by a small in-memory world wherever a
    statement is evaluated on a concrete input. *)

From Stdlib Require Import String Ascii List.
From stdpp Require Import gmap strings list fin_maps fin_sets pretty.
Import ListNotations.
Local Open Scope string_scope.
Local Open Scope list_scope.

(** ** Errors

    Go errors are values carrying a message.  Errors produced by a library
    call are kept opaque ([LibError]); each [fmt.Errorf] site of the program
    has a constructor of its own that wraps the paths involved and the
    underlying error. *)

Inductive error : Type :=
| LibError (msg : string)
| AbsPathError (dir : string) (cause : error)
| PackageForDirError (dir : string) (cause : error)
| NotMainError (name : string)
| BundleCopyError (srcDir dstDir : string) (cause : error)
| CreateDirectoryError (d : string) (cause : error)
| ReadDirError (srcDir : string) (cause : error)
| StatError (s : string) (cause : error)
| CopyDirError (s d : string) (cause : error)
| OpenError (src : string) (cause : error)
| CreateError (dst : string) (cause : error)
| CopyError (src dst : string) (cause : error)
| CloseError (dst : string) (cause : error).

Inductive result (A : Type) : Type :=
| Ok (a : A)
| Err (e : error).
Arguments Ok {A} a.
Arguments Err {A} e.

Definition is_ok {A} (r : result A) : bool :=
  match r with Ok _ => true | Err _ => false end.

(** ** Data model *)

(** The fields of [build.Package] that the program reads. *)
Record Package : Type := {
  Name : string;
  ImportPath : string;
  SrcRoot : string;
  Dir : string;
  Imports : list string
}.

(** [func (p *Package) IsCommand() bool { return p.Name == "main" }] *)
Definition IsCommand (pkg : Package) : bool := String.eqb (Name pkg) "main".

(** [type importFrom struct { path, fromDir string }] *)
Record importFrom : Type := { path : string; fromDir : string }.

Global Instance importFrom_eq_dec : EqDecision importFrom.
Proof. solve_decision. Defined.

Global Instance importFrom_countable : Countable importFrom :=
  inj_countable' (λ i, (path i, fromDir i))
                 (λ p, {| path := p.1; fromDir := p.2 |})
                 (λ i, match i with Build_importFrom _ _ => eq_refl end).

(** [type config struct { VM bool; Env string }] *)
Record config : Type := { VM : bool; Env : string }.

Definition isFlex (conf : config) : bool :=
  VM conf || String.eqb (Env conf) "flex" || String.eqb (Env conf) "flexible"
          || String.eqb (Env conf) "2".

(** The package-level variable [skippedPackages], as the program text
    initialises it. *)
Definition skippedPackages_init : gmap string bool :=
  list_to_map
    [ ("appengine", true); ("appengine_internal", true); ("C", true);
      ("unsafe", true);
      ("archive", true); ("bufio", true); ("builtin", true); ("bytes", true);
      ("compress", true); ("container", true); ("context", true);
      ("crypto", true); ("database", true); ("debug", true);
      ("encoding", true); ("errors", true); ("expvar", true); ("flag", true);
      ("fmt", true); ("go", true); ("hash", true); ("html", true);
      ("image", true); ("index", true); ("io", true); ("log", true);
      ("math", true); ("mime", true); ("net", true); ("os", true);
      ("path", true); ("reflect", true); ("regexp", true); ("runtime", true);
      ("sort", true); ("strconv", true); ("strings", true); ("sync", true);
      ("syscall", true); ("testing", true); ("text", true); ("time", true);
      ("unicode", true) ].

(** The package-level variable [skipFiles]. *)
Definition skipFiles : gmap string bool :=
  list_to_map
    [ (".git", true); (".gitconfig", true); (".hg", true);
      (".travis.yml", true) ].

Definition minorVersions : list nat := [6; 7; 8].

(** Reading a [map[string]bool] at a key yields the zero value [false] when
    the key is absent. *)
Definition map_get (m : gmap string bool) (k : string) : bool :=
  default false (m !! k).

(** [strings.SplitN(s, "/", 2)[0]]: the text before the first slash, the
    whole string when there is none. *)
Fixpoint firstPart (s : string) : string :=
  match s with
  | EmptyString => EmptyString
  | String c rest =>
      if Ascii.eqb c "/"%char then EmptyString else String c (firstPart rest)
  end.

(** ** The dependency analyzer *)

Section Analyzer.

(** [filepath.Abs], [filepath.Join], and the two methods of the
    [*build.Context] in use, read against the file system as it stands
    during the pass ([analyze] writes nothing). *)
Variable Abs : string → result string.
Variable Join : string → string → string.
Variable ImportDir : string → result Package.
Variable Import : string → string → result Package.

(** The value of [skippedPackages] during the pass. *)
Variable skip : gmap string bool.

(** The local variables of the [for len(imports) != 0] loop.  [attempts]
    is a ghost field: the edges handed to [ctx.Import], oldest first. *)
Record loopState : Type := {
  imports : list importFrom;
  visited : gmap importFrom bool;
  visitedPackages : gmap string bool;
  packages : list Package;
  attempts : list importFrom
}.

Definition edgesOf (fromDir : string) (paths : list string) : list importFrom :=
  map (λ importPath, {| path := importPath; fromDir := fromDir |}) paths.

Definition isSkipped (i : importFrom) : bool :=
  map_get skip (firstPart (path i)).

Definition pkgKey (pkg : Package) : string := Join (SrcRoot pkg) (ImportPath pkg).

Inductive stepOutcome : Type :=
| Finished (s : loopState)
| Next (s : loopState)
| Failed (e : error) (s : loopState).

(** One turn of the loop. *)
Definition analyze_step (s : loopState) : stepOutcome :=
  match imports s with
  | [] => Finished s
  | i :: rest =>
      match visited s !! i with
      | Some _ =>
          Next {| imports := rest; visited := visited s;
                  visitedPackages := visitedPackages s;
                  packages := packages s; attempts := attempts s |}
      | None =>
          if isSkipped i then
            Next {| imports := rest; visited := visited s;
                    visitedPackages := visitedPackages s;
                    packages := packages s; attempts := attempts s |}
          else
            let visited' := <[i := true]> (visited s) in
            let attempts' := attempts s ++ [i] in
            match Import (path i) (fromDir i) with
            | Err e =>
                Failed e {| imports := rest; visited := visited';
                            visitedPackages := visitedPackages s;
                            packages := packages s; attempts := attempts' |}
            | Ok pkg =>
                let name := pkgKey pkg in
                let fresh :=
                  match visitedPackages s !! name with
                  | Some _ => false
                  | None => true
                  end in
                Next {| imports := rest ++ edgesOf (Dir pkg) (Imports pkg);
                        visited := visited';
                        visitedPackages :=
                          if fresh then <[name := true]> (visitedPackages s)
                          else visitedPackages s;
                        packages :=
                          if fresh then packages s ++ [pkg] else packages s;
                        attempts := attempts' |}
            end
      end
  end.

(** The loop, bounded by [fuel] turns; [None] when the bound is reached
    before the queue empties. *)
Fixpoint analyze_loop (fuel : nat) (s : loopState)
  : option (result (list Package) * loopState) :=
  match fuel with
  | O => None
  | S fuel' =>
      match analyze_step s with
      | Finished s' => Some (Ok (packages s'), s')
      | Failed e s' => Some (Err e, s')
      | Next s' => analyze_loop fuel' s'
      end
  end.

Definition initState (abs : string) (pkg : Package) : loopState :=
  {| imports := edgesOf abs (Imports pkg);
     visited := ∅; visitedPackages := ∅; packages := []; attempts := [] |}.

Definition emptyState : loopState :=
  {| imports := []; visited := ∅; visitedPackages := ∅; packages := [];
     attempts := [] |}.

(** [analyze], returning the final loop variables next to the result. *)
Definition analyze_run (fuel : nat) (dir : string) (enforceMain : bool)
  : option (result (list Package) * loopState) :=
  match Abs dir with
  | Err e => Some (Err (AbsPathError dir e), emptyState)
  | Ok abs =>
      match ImportDir abs with
      | Err e => Some (Err (PackageForDirError dir e), emptyState)
      | Ok pkg =>
          if enforceMain && negb (IsCommand pkg) then
            Some (Err (NotMainError (Name pkg)), emptyState)
          else analyze_loop fuel (initState abs pkg)
      end
  end.

Definition analyze (fuel : nat) (dir : string) (enforceMain : bool)
  : option (result (list Package)) :=
  fst <$> analyze_run fuel dir enforceMain.

(** The import edges the traversal can come across: those of the root
    package, and those of every package obtained by resolving an edge
    that is itself reachable and is not skipped. *)
Inductive reachable (abs : string) (root : Package) : importFrom → Prop :=
| reachable_root importPath :
    importPath ∈ Imports root →
    reachable abs root {| path := importPath; fromDir := abs |}
| reachable_import i pkg importPath :
    reachable abs root i →
    isSkipped i = false →
    Import (path i) (fromDir i) = Ok pkg →
    importPath ∈ Imports pkg →
    reachable abs root {| path := importPath; fromDir := Dir pkg |}.

End Analyzer.

(** ** The world outside the program

    File metadata as [os.FileInfo] exposes it to [copyTree]: the base name,
    the [os.ModeSymlink] bit of [Mode()], and [IsDir()]. *)
Record FileInfo : Type := {
  fiName : string;
  fiSymlink : bool;
  fiIsDir : bool
}.

(** The fields of [build.Context] that [buildContext] sets. *)
Record Context : Type := {
  GOARCH : string;
  GOOS : string;
  GOROOT : string;
  GOPATH : string;
  Compiler : string;
  BuildTags : list string;
  ReleaseTags : list string
}.

(** The library calls of the program.  [disk] is the state of the file
    system; calls that read it take it as an argument, calls that write it
    return the new state together with their error, if any. *)
Record World : Type := {
  disk : Type;
  filepath_Abs : string → result string;
  filepath_Join : string → string → string;
  filepath_Dir : string → string;
  ioutil_ReadFile : disk → string → result string;
  yaml_Unmarshal : string → result config;
  build_Default_GOPATH : string;
  build_Default_Compiler : string;
  build_ImportDir : Context → disk → string → result Package;
  build_Import : Context → disk → string → string → result Package;
  os_MkdirAll : disk → string → disk * option error;
  ioutil_ReadDir : disk → string → result (list FileInfo);
  os_Stat : disk → string → result FileInfo;
  os_Open : disk → string → option error;
  os_Create : disk → string → disk * option error;
  io_Copy : disk → string → string → disk * option error;
  file_Close : disk → string → disk * option error
}.

(** What the program writes to the standard error stream, one constructor
    per print site. *)
Inductive logLine : Type :=
| LogUsage
| LogSkipping (s : string)
| LogCopied (s d : string)
| LogFailedRead (configPath : string) (e : error)
| LogFailedUnmarshal (e : error)
| LogFailedAnalyzing (src : string) (e : error) (gopath : string)
| LogFailedBundle (src dst : string) (e : error)
| LogFailedRootCopy (e : error).

(** The state the program runs in: the file system, the two output
    streams, and the two package-level maps.  [mkdirs] is a ghost field:
    the arguments of the [os.MkdirAll] calls made so far, oldest first. *)
Record state (W : World) : Type := {
  fs : disk W;
  stdout : list string;
  stderr : list logLine;
  skippedPackages : gmap string bool;
  skipFilesVar : gmap string bool;
  mkdirs : list string
}.
Arguments fs {W} _.
Arguments stdout {W} _.
Arguments stderr {W} _.
Arguments skippedPackages {W} _.
Arguments skipFilesVar {W} _.
Arguments mkdirs {W} _.

Definition set_fs {W} (st : state W) (d : disk W) : state W :=
  {| fs := d; stdout := stdout st; stderr := stderr st;
     skippedPackages := skippedPackages st; skipFilesVar := skipFilesVar st;
     mkdirs := mkdirs st |}.

Definition log {W} (st : state W) (l : logLine) : state W :=
  {| fs := fs st; stdout := stdout st; stderr := stderr st ++ [l];
     skippedPackages := skippedPackages st; skipFilesVar := skipFilesVar st;
     mkdirs := mkdirs st |}.

Definition note_mkdir {W} (st : state W) (d : string) : state W :=
  {| fs := fs st; stdout := stdout st; stderr := stderr st;
     skippedPackages := skippedPackages st; skipFilesVar := skipFilesVar st;
     mkdirs := mkdirs st ++ [d] |}.

Definition set_skipped {W} (st : state W) (m : gmap string bool) : state W :=
  {| fs := fs st; stdout := stdout st; stderr := stderr st;
     skippedPackages := m; skipFilesVar := skipFilesVar st;
     mkdirs := mkdirs st |}.

(** The state at process start. *)
Definition initial {W} (d : disk W) : state W :=
  {| fs := d; stdout := []; stderr := [];
     skippedPackages := skippedPackages_init; skipFilesVar := skipFiles;
     mkdirs := [] |}.

(** ** The tree copier, the bundler and the orchestrator *)

Section Stager.

Variable W : World.

Local Abbreviation Join := (filepath_Join W).

(** [copyFile].  The deferred [s.Close()] discards its error. *)
Definition copyFile (dstRoot dst src : string) (st : state W)
  : option error * state W :=
  match os_Open W (fs st) src with
  | Some e => (Some (OpenError src e), st)
  | None =>
      let dst := Join dstRoot dst in
      match os_Create W (fs st) dst with
      | (d1, Some e) => (Some (CreateError dst e), set_fs st d1)
      | (d1, None) =>
          match io_Copy W d1 dst src with
          | (d2, Some e) =>
              (Some (CopyError src dst e), set_fs st (fst (file_Close W d2 dst)))
          | (d2, None) =>
              match file_Close W d2 dst with
              | (d3, Some e) => (Some (CloseError dst e), set_fs st d3)
              | (d3, None) => (None, set_fs st d3)
              end
          end
      end
  end.

(** The [for _, entry := range entries] loop of [copyTree]; [recur] is
    the recursive call [copyTree(dstRoot, d, s, recursive)]. *)
Fixpoint copyEntries
    (recur : string → string → state W → option (option error * state W))
    (dstRoot dstDir srcDir : string) (recursive : bool)
    (entries : list FileInfo) (st : state W)
  : option (option error * state W) :=
  match entries with
  | [] => Some (None, st)
  | entry :: rest =>
      let n := fiName entry in
      let s := Join srcDir n in
      if map_get (skipFilesVar st) n then
        copyEntries recur dstRoot dstDir srcDir recursive rest
                    (log st (LogSkipping s))
      else
        match (if fiSymlink entry then os_Stat W (fs st) s else Ok entry) with
        | Err e => Some (Some (StatError s e), st)
        | Ok entry =>
            let d := Join dstDir n in
            if fiIsDir entry then
              if negb recursive then
                copyEntries recur dstRoot dstDir srcDir recursive rest st
              else
                match recur d s st with
                | None => None
                | Some (Some e, st') => Some (Some (CopyDirError s d e), st')
                | Some (None, st') =>
                    copyEntries recur dstRoot dstDir srcDir recursive rest st'
                end
            else
              match copyFile dstRoot d s st with
              | (Some e, st') => Some (Some (CopyDirError s d e), st')
              | (None, st') =>
                  copyEntries recur dstRoot dstDir srcDir recursive rest
                              (log st' (LogCopied s (Join dstRoot d)))
              end
        end
  end.

(** [copyTree]; [fuel] bounds the depth of the recursion, [None] when it
    is exhausted. *)
Fixpoint copyTree (fuel : nat) (dstRoot dstDir srcDir : string)
    (recursive : bool) (st : state W) : option (option error * state W) :=
  match fuel with
  | O => None
  | S fuel' =>
      let d := Join dstRoot dstDir in
      match os_MkdirAll W (fs st) d with
      | (d1, Some e) =>
          Some (Some (CreateDirectoryError d e), note_mkdir (set_fs st d1) d)
      | (d1, None) =>
          let st1 := note_mkdir (set_fs st d1) d in
          match ioutil_ReadDir W (fs st1) srcDir with
          | Err e => Some (Some (ReadDirError srcDir e), st1)
          | Ok entries =>
              copyEntries
                (λ d s st', copyTree fuel' dstRoot d s recursive st')
                dstRoot dstDir srcDir recursive entries st1
          end
      end
  end.

(** [bundle] *)
Fixpoint bundle (fuel : nat) (src dst vendorDir : string)
    (deps : list Package) (st : state W) : option (option error * state W) :=
  match deps with
  | [] => Some (None, st)
  | pkg :: rest =>
      let dstDir := Join vendorDir (ImportPath pkg) in
      let srcDir := Join (SrcRoot pkg) (ImportPath pkg) in
      match copyTree fuel dst dstDir srcDir false st with
      | None => None
      | Some (Some e, st') => Some (Some (BundleCopyError srcDir dstDir e), st')
      | Some (None, st') => bundle fuel src dst vendorDir rest st'
      end
  end.

(** [releaseTags]: [go1.1] up to [go1.minorVersion]. *)
Definition releaseTags (minorVersion : nat) : list string :=
  map (λ i, "go1." +:+ pretty i) (seq 1 minorVersion).

Definition buildContext (tags : list string) (minorVersion : nat) : Context :=
  {| GOARCH := "amd64"; GOOS := "linux"; GOROOT := "";
     GOPATH := build_Default_GOPATH W;
     Compiler := build_Default_Compiler W;
     BuildTags := tags; ReleaseTags := releaseTags minorVersion |}.

(** [analyze] as [main] calls it: against the current file system and
    the current value of [skippedPackages]. *)
Definition analyzeIn (st : state W) (fuel : nat) (dir : string)
    (ctx : Context) (enforceMain : bool) : option (result (list Package)) :=
  analyze (filepath_Abs W) Join (build_ImportDir W ctx (fs st))
          (build_Import W ctx (fs st)) (skippedPackages st)
          fuel dir enforceMain.

(** The [for _, minorVersion := range minorVersions] loop of [main].  The
    result is [true] when every pass succeeded and [false] when the
    program logged a failure and called [os.Exit(1)]. *)
Fixpoint passes (fuel : nat) (src dst : string) (tags : list string)
    (enforceMain : bool) (vendorDir : string) (levels : list nat)
    (st : state W) : option (bool * state W) :=
  match levels with
  | [] => Some (true, st)
  | minorVersion :: rest =>
      let buildCtx := buildContext tags minorVersion in
      match analyzeIn st fuel src buildCtx enforceMain with
      | None => None
      | Some (Err e) =>
          Some (false, log st (LogFailedAnalyzing src e (GOPATH buildCtx)))
      | Some (Ok deps) =>
          match bundle fuel src dst vendorDir deps st with
          | None => None
          | Some (Some e, st') => Some (false, log st' (LogFailedBundle src dst e))
          | Some (None, st') =>
              passes fuel src dst tags enforceMain vendorDir rest st'
          end
      end
  end.

(** The end of [main]: the copy of the application root, and the exit
    status. *)
Definition rootCopy (fuel : nat) (src dst : string) (st : state W)
  : option (nat * state W) :=
  match copyTree fuel dst "." src true st with
  | None => None
  | Some (Some e, st') => Some (1, log st' (LogFailedRootCopy e))
  | Some (None, st') => Some (0, st')
  end.

(** [main] from the point where the manifest has been decoded. *)
Definition stage (fuel : nat) (c : config) (src dst : string) (st : state W)
  : option (nat * state W) :=
  let '(tags, enforceMain, vendorDir, st) :=
    if isFlex c then
      (["appenginevm"], true, Join "_gopath" "src",
       set_skipped st (<["appengine" := false]> (skippedPackages st)))
    else (["appengine"], false, "", st) in
  match passes fuel src dst tags enforceMain vendorDir minorVersions st with
  | None => None
  | Some (false, st') => Some (1, st')
  | Some (true, st') => rootCopy fuel src dst st'
  end.

(** [main].  [args] are the positional arguments left by [flag.Parse];
    the result is the exit status of the process. *)
Definition main (fuel : nat) (args : list string) (st : state W)
  : option (nat * state W) :=
  match args with
  | [configPath; dst] =>
      let src := filepath_Dir W configPath in
      match ioutil_ReadFile W (fs st) configPath with
      | Err e => Some (1, log st (LogFailedRead configPath e))
      | Ok contents =>
          match yaml_Unmarshal W contents with
          | Err e => Some (1, log st (LogFailedUnmarshal e))
          | Ok c => stage fuel c src dst st
          end
      end
  | _ => Some (1, log st LogUsage)
  end.

(** The manifest [main] decodes, if it gets that far. *)
Definition manifestOf (args : list string) (st : state W) : option config :=
  match args with
  | [configPath; dst] =>
      match ioutil_ReadFile W (fs st) configPath with
      | Ok contents =>
          match yaml_Unmarshal W contents with
          | Ok c => Some c
          | Err _ => None
          end
      | Err _ => None
      end
  | _ => None
  end.

(** The Bundler as the specification words it: every package directory
    copied by a fully recursive Tree Copier call. *)
Fixpoint bundle_recursive_spec (fuel : nat) (src dst vendorDir : string)
    (deps : list Package) (st : state W) : option (option error * state W) :=
  match deps with
  | [] => Some (None, st)
  | pkg :: rest =>
      let dstDir := Join vendorDir (ImportPath pkg) in
      let srcDir := Join (SrcRoot pkg) (ImportPath pkg) in
      match copyTree fuel dst dstDir srcDir true st with
      | None => None
      | Some (Some e, st') => Some (Some (BundleCopyError srcDir dstDir e), st')
      | Some (None, st') => bundle_recursive_spec fuel src dst vendorDir rest st'
      end
  end.

(** Where [bundle] puts a package. *)
Definition vendorTarget (dst vendorDir : string) (pkg : Package) : string :=
  Join dst (Join vendorDir (ImportPath pkg)).

End Stager.

(** The lines that report a failure (all but the progress lines of
    [copyTree]). *)
Definition isDiagnostic (l : logLine) : bool :=
  match l with
  | LogSkipping _ | LogCopied _ _ => false
  | _ => true
  end.

(** The two package-level maps and the standard output are the same in
    both states. *)
Definition same_globals {W} (st st' : state W) : Prop :=
  stdout st' = stdout st ∧
  skippedPackages st' = skippedPackages st ∧
  skipFilesVar st' = skipFilesVar st.

(** ** An in-memory world

    A small instance of [World], used to evaluate the program on concrete
    inputs: a disk of regular files and directories keyed by their path
    (no symbolic links), path functions that agree with [path/filepath] on
    clean paths without [..] segments, a package index standing for what
    [go/build] reads from the Go sources, and a table of manifests standing
    for the YAML decoder. *)

Module Mem.

Inductive node : Type :=
| File (content : string)
| Directory.

Definition Join (a b : string) : string :=
  if String.eqb a "" then b
  else if String.eqb b "" then a
  else if String.eqb a "." then b
  else if String.eqb b "." then a
  else a +:+ "/" +:+ b.

(** The text before the last slash, if there is a slash. *)
Fixpoint beforeLastSlash (s : string) : option string :=
  match s with
  | EmptyString => None
  | String c r =>
      match beforeLastSlash r with
      | Some p => Some (String c p)
      | None => if Ascii.eqb c "/"%char then Some EmptyString else None
      end
  end.

(** The text after the last slash, the whole string if there is none. *)
Fixpoint afterLastSlash (s : string) : string :=
  match s with
  | EmptyString => EmptyString
  | String c r =>
      match beforeLastSlash r with
      | Some _ => afterLastSlash r
      | None => if Ascii.eqb c "/"%char then r else s
      end
  end.

Definition DirOf (p : string) : string :=
  match beforeLastSlash p with
  | None => "."
  | Some EmptyString => "/"
  | Some d => d
  end.

Definition Abs (p : string) : result string :=
  match p with
  | String "/"%char _ => Ok p
  | _ => Ok (Join "/cwd" p)
  end.

Fixpoint stripPrefix (pre s : string) : option string :=
  match pre with
  | EmptyString => Some s
  | String a pre' =>
      match s with
      | EmptyString => None
      | String b s' => if Ascii.eqb a b then stripPrefix pre' s' else None
      end
  end.

Definition hasSlash (s : string) : bool := bool_decide (firstPart s ≠ s).

Fixpoint insertByName (e : FileInfo) (l : list FileInfo) : list FileInfo :=
  match l with
  | [] => [e]
  | x :: l' =>
      if String.leb (fiName e) (fiName x) then e :: l
      else x :: insertByName e l'
  end.

Definition infoOf (name : string) (n : node) : FileInfo :=
  {| fiName := name; fiSymlink := false;
     fiIsDir := match n with Directory => true | File _ => false end |}.

(** The entries of directory [d], sorted by name. *)
Definition children (fs : gmap string node) (d : string) : list FileInfo :=
  foldr insertByName []
    (omap (λ kv, match stripPrefix (d +:+ "/") (fst kv) with
                 | Some n => if hasSlash n then None else Some (infoOf n (snd kv))
                 | None => None
                 end)
          (map_to_list fs)).

Definition noSuchFile : error := LibError "no such file or directory".

Definition ReadFile (fs : gmap string node) (p : string) : result string :=
  match fs !! p with
  | Some (File c) => Ok c
  | Some Directory => Err (LibError "is a directory")
  | None => Err noSuchFile
  end.

Definition ReadDir (fs : gmap string node) (d : string)
  : result (list FileInfo) :=
  match fs !! d with
  | Some Directory => Ok (children fs d)
  | Some (File _) => Err (LibError "not a directory")
  | None => Err noSuchFile
  end.

Definition Stat (fs : gmap string node) (p : string) : result FileInfo :=
  match fs !! p with
  | Some n => Ok (infoOf (afterLastSlash p) n)
  | None => Err noSuchFile
  end.

Fixpoint mkdirParents (n : nat) (d : string) (fs : gmap string node)
  : gmap string node :=
  match n with
  | O => fs
  | S n' =>
      if String.eqb d "." || String.eqb d "/" || String.eqb d "" then fs
      else <[d := Directory]> (mkdirParents n' (DirOf d) fs)
  end.

Definition MkdirAll (fs : gmap string node) (d : string)
  : gmap string node * option error :=
  match fs !! d with
  | Some (File _) => (fs, Some (LibError "not a directory"))
  | _ => (mkdirParents (String.length d) d fs, None)
  end.

Definition Open (fs : gmap string node) (p : string) : option error :=
  match fs !! p with
  | Some _ => None
  | None => Some noSuchFile
  end.

Definition Create (fs : gmap string node) (p : string)
  : gmap string node * option error :=
  match fs !! DirOf p, fs !! p with
  | Some Directory, Some Directory => (fs, Some (LibError "is a directory"))
  | Some Directory, _ => (<[p := File ""]> fs, None)
  | _, _ => (fs, Some noSuchFile)
  end.

Definition Copy (fs : gmap string node) (dst src : string)
  : gmap string node * option error :=
  match fs !! src with
  | Some (File c) => (<[dst := File c]> fs, None)
  | _ => (fs, Some (LibError "read: is a directory"))
  end.

Definition Close (fs : gmap string node) (p : string)
  : gmap string node * option error := (fs, None).

Definition noPackage : error := LibError "cannot find package".

(** [ImportDir]: the indexed package that lives in [dir]. *)
Definition ImportDir (index : list Package) (ctx : Context)
    (fs : gmap string node) (dir : string) : result Package :=
  match fs !! dir with
  | Some Directory =>
      match List.find (λ pkg, String.eqb (Dir pkg) dir) index with
      | Some pkg => Ok pkg
      | None => Err (LibError "no buildable Go source files")
      end
  | _ => Err noPackage
  end.

(** [Import]: the indexed package of that import path, wherever the
    import comes from, provided its directory is on the disk. *)
Definition Import (index : list Package) (ctx : Context)
    (fs : gmap string node) (path srcDir : string) : result Package :=
  match List.find (λ pkg, String.eqb (ImportPath pkg) path) index with
  | Some pkg =>
      match fs !! Dir pkg with
      | Some Directory => Ok pkg
      | _ => Err noPackage
      end
  | None => Err noPackage
  end.

Definition Unmarshal (manifests : list (string * config)) (contents : string)
  : result config :=
  match List.find (λ m, String.eqb (fst m) contents) manifests with
  | Some m => Ok (snd m)
  | None => Err (LibError "yaml: unmarshal errors")
  end.

Definition world (index : list Package) (manifests : list (string * config))
  : World :=
  {| disk := gmap string node;
     filepath_Abs := Abs;
     filepath_Join := Join;
     filepath_Dir := DirOf;
     ioutil_ReadFile := ReadFile;
     yaml_Unmarshal := Unmarshal manifests;
     build_Default_GOPATH := "/gopath";
     build_Default_Compiler := "gc";
     build_ImportDir := ImportDir index;
     build_Import := Import index;
     os_MkdirAll := MkdirAll;
     ioutil_ReadDir := ReadDir;
     os_Stat := Stat;
     os_Open := Open;
     os_Create := Create;
     io_Copy := Copy;
     file_Close := Close |}.

(** *** A sample application

    [/gopath/src/app] holds a [main] package that imports [fmt] and the
    external package [example.com/lib]; the latter has a nested package
    [example.com/lib/sub], which nothing imports. *)

Definition appPkg : Package :=
  {| Name := "main"; ImportPath := "app"; SrcRoot := "/gopath/src";
     Dir := "/gopath/src/app"; Imports := ["fmt"; "example.com/lib"] |}.

Definition libPkg : Package :=
  {| Name := "lib"; ImportPath := "example.com/lib"; SrcRoot := "/gopath/src";
     Dir := "/gopath/src/example.com/lib"; Imports := ["strings"] |}.

Definition index : list Package := [appPkg; libPkg].

Definition standardYaml : string := "runtime: go".
Definition flexYaml : string := "vm: true".

Definition manifests : list (string * config) :=
  [ (standardYaml, {| VM := false; Env := "" |});
    (flexYaml, {| VM := true; Env := "" |}) ].

Definition sampleDisk (yaml : string) : gmap string node :=
  list_to_map
    [ ("/gopath", Directory); ("/gopath/src", Directory);
      ("/gopath/src/app", Directory);
      ("/gopath/src/app/app.yaml", File yaml);
      ("/gopath/src/app/main.go", File "package main");
      ("/gopath/src/example.com", Directory);
      ("/gopath/src/example.com/lib", Directory);
      ("/gopath/src/example.com/lib/lib.go", File "package lib");
      ("/gopath/src/example.com/lib/sub", Directory);
      ("/gopath/src/example.com/lib/sub/sub.go", File "package sub");
      ("/out", Directory) ].

Definition sampleWorld : World := world index manifests.

Definition sampleArgs : list string := ["/gopath/src/app/app.yaml"; "/out"].

Definition sampleStart (yaml : string) : state sampleWorld :=
  initial (W := sampleWorld) (sampleDisk yaml).

End Mem.


(** ** Invariants of the analyzer loop *)

Section AnalyzerInvariants.

Variable Join : string → string → string.
Variable Import : string → string → result Package.
Variable skip : gmap string bool.
Variable abs : string.
Variable root : Package.

(** An edge is accounted for when it waits in the queue, has been marked
    visited, or is skipped. *)
Definition covered (s : loopState) (i : importFrom) : Prop :=
  i ∈ imports s ∨ is_Some (visited s !! i) ∨ isSkipped skip i = true.

(** What holds of the loop variables at every turn, whether or not the
    pass goes on to fail. *)
Record sound (s : loopState) : Prop := {
  sound_queue : ∀ i, i ∈ imports s → reachable Import skip abs root i;
  sound_visited : ∀ i, is_Some (visited s !! i) ↔ i ∈ attempts s;
  sound_nodup : NoDup (attempts s);
  sound_attempts :
    ∀ i, i ∈ attempts s →
         reachable Import skip abs root i ∧ isSkipped skip i = false;
  sound_keys :
    ∀ k, is_Some (visitedPackages s !! k) ↔ k ∈ map (pkgKey Join) (packages s);
  sound_keys_nodup : NoDup (map (pkgKey Join) (packages s));
  sound_packages :
    ∀ pkg, pkg ∈ packages s →
           ∃ i, i ∈ attempts s ∧ Import (path i) (fromDir i) = Ok pkg
}.

(** What holds in addition as long as no resolution has failed. *)
Record complete (s : loopState) : Prop := {
  complete_seed :
    ∀ p, p ∈ Imports root → covered s {| path := p; fromDir := abs |};
  complete_attempts :
    ∀ i, i ∈ attempts s →
         ∃ pkg, Import (path i) (fromDir i) = Ok pkg ∧
                pkgKey Join pkg ∈ map (pkgKey Join) (packages s) ∧
                ∀ p, p ∈ Imports pkg →
                     covered s {| path := p; fromDir := Dir pkg |}
}.

End AnalyzerInvariants.

(** ** Small import graphs in the in-memory world *)

Module Graphs.

(** [Mem.Import] and [Mem.ImportDir] pay no attention to the build
    context; this one stands for any. *)
Definition anyContext : Context :=
  {| GOARCH := "amd64"; GOOS := "linux"; GOROOT := ""; GOPATH := "/gopath";
     Compiler := "gc"; BuildTags := ["appengine"]; ReleaseTags := ["go1.1"] |}.

Definition ImportDir (index : list Package) (fs : gmap string Mem.node) :=
  Mem.ImportDir index anyContext fs.

Definition Import (index : list Package) (fs : gmap string Mem.node) :=
  Mem.Import index anyContext fs.

(** One pass of the analyzer over an index and a disk. *)
Definition run (index : list Package) (fs : gmap string Mem.node)
    (skip : gmap string bool) (fuel : nat) (dir : string) (enforceMain : bool) :=
  analyze_run Mem.Abs Mem.Join (ImportDir index fs) (Import index fs) skip
              fuel dir enforceMain.

Definition dirs (l : list string) : gmap string Mem.node :=
  list_to_map (map (λ d, (d, Mem.Directory)) l).

Definition pkg (name importPath : string) (imports : list string) : Package :=
  {| Name := name; ImportPath := importPath; SrcRoot := "/gopath/src";
     Dir := "/gopath/src/" +:+ importPath; Imports := imports |}.

Definition edge (importPath from : string) : importFrom :=
  {| path := importPath; fromDir := "/gopath/src/" +:+ from |}.

Definition appDir : string := "/gopath/src/app".

(** A cycle: the root imports [a], [a] imports [b], [b] imports [a]. *)
Definition cycleRoot : Package := pkg "main" "app" ["a"].
Definition cycleA : Package := pkg "a" "a" ["b"].
Definition cycleB : Package := pkg "b" "b" ["a"].
Definition cycleIndex : list Package := [cycleRoot; cycleA; cycleB].
Definition cycleDisk : gmap string Mem.node :=
  dirs ["/gopath/src/app"; "/gopath/src/a"; "/gopath/src/b"].
Definition cycleEdges : gset importFrom :=
  list_to_set [edge "a" "app"; edge "b" "a"; edge "a" "b"].

(** A diamond: the root imports [a] and [b], both import [c]. *)
Definition diamondRoot : Package := pkg "main" "app" ["a"; "b"].
Definition diamondRootSwapped : Package := pkg "main" "app" ["b"; "a"].
Definition diamondA : Package := pkg "a" "a" ["c"].
Definition diamondB : Package := pkg "b" "b" ["c"].
Definition diamondC : Package := pkg "c" "c" [].
Definition diamondIndex : list Package :=
  [diamondRoot; diamondA; diamondB; diamondC].
Definition diamondIndexSwapped : list Package :=
  [diamondRootSwapped; diamondA; diamondB; diamondC].
Definition diamondDisk : gmap string Mem.node :=
  dirs ["/gopath/src/app"; "/gopath/src/a"; "/gopath/src/b"; "/gopath/src/c"].

(** A root whose two imports cannot be found. *)
Definition brokenRoot : Package := pkg "main" "app" ["missing/a"; "missing/b"].
Definition brokenIndex : list Package := [brokenRoot].
Definition brokenDisk : gmap string Mem.node := dirs ["/gopath/src/app"].

(** A Flexible application that imports the legacy [appengine] package,
    present under the search path. *)
Definition flexRoot : Package := pkg "main" "app" ["appengine"].
Definition appenginePkg : Package := pkg "appengine" "appengine" [].
Definition flexIndex : list Package := [flexRoot; appenginePkg].
Definition flexDisk : gmap string Mem.node :=
  list_to_map
    [ ("/gopath", Mem.Directory); ("/gopath/src", Mem.Directory);
      ("/gopath/src/app", Mem.Directory);
      ("/gopath/src/app/app.yaml", Mem.File Mem.flexYaml);
      ("/gopath/src/app/main.go", Mem.File "package main");
      ("/gopath/src/appengine", Mem.Directory);
      ("/gopath/src/appengine/api.go", Mem.File "package appengine");
      ("/out", Mem.Directory) ].
Definition flexWorld : World := Mem.world flexIndex Mem.manifests.
Definition flexStart : state flexWorld := initial (W := flexWorld) flexDisk.

(** The sample application of [Mem], as a graph. *)
Definition sampleEdges : list importFrom :=
  [edge "fmt" "app"; edge "example.com/lib" "app";
   edge "strings" "example.com/lib"].

End Graphs.

(** ** Reading off the outcome of a run

    The state a run ends in (the given default when it does not end), and
    the loop variables a pass of the analyzer ends with. *)

Definition stateOf {A : Type} {W : World} (r : option (A * state W))
    (default : state W) : state W :=
  match r with
  | Some (_, st) => st
  | None => default
  end.

Definition loopOf (r : option (result (list Package) * loopState)) : loopState :=
  match r with
  | Some (_, s) => s
  | None => emptyState
  end.

Definition outputOf (r : option (result (list Package) * loopState))
  : list Package :=
  match r with
  | Some (Ok pkgs, _) => pkgs
  | _ => []
  end.

Module Runs.

(** The sample application of [Mem], staged in Standard mode. *)
Definition standardStart : state Mem.sampleWorld :=
  Mem.sampleStart Mem.standardYaml.
Definition standardRun :=
  main Mem.sampleWorld 10 Mem.sampleArgs standardStart.
Definition standardEnd : state Mem.sampleWorld :=
  stateOf standardRun standardStart.
Definition standardPasses :=
  passes Mem.sampleWorld 10 "/gopath/src/app" "/out" ["appengine"] false ""
         minorVersions standardStart.
Definition standardAfterPasses : state Mem.sampleWorld :=
  stateOf standardPasses standardStart.

(** The same application, staged in Flexible mode. *)
Definition flexibleStart : state Mem.sampleWorld :=
  Mem.sampleStart Mem.flexYaml.
Definition flexibleRun :=
  main Mem.sampleWorld 10 Mem.sampleArgs flexibleStart.
Definition flexibleEnd : state Mem.sampleWorld :=
  stateOf flexibleRun flexibleStart.

(** The Bundler on the one dependency of the sample application, and
    the recursive Bundler of the specification on the same input. *)
Definition bundled : state Mem.sampleWorld :=
  stateOf (bundle Mem.sampleWorld 10 "/gopath/src/app" "/out" "_gopath/src"
                  [Mem.libPkg] standardStart) standardStart.
Definition bundledRecursively : state Mem.sampleWorld :=
  stateOf (bundle_recursive_spec Mem.sampleWorld 10 "/gopath/src/app" "/out"
                  "_gopath/src" [Mem.libPkg] standardStart) standardStart.

(** The Flexible application that imports [appengine]. *)
Definition appengineRun :=
  main Graphs.flexWorld 10 Mem.sampleArgs Graphs.flexStart.
Definition appengineEnd : state Graphs.flexWorld :=
  stateOf appengineRun Graphs.flexStart.
Definition flexSkip : gmap string bool :=
  <["appengine" := false]> skippedPackages_init.

(** Passes of the analyzer over the sample graphs. *)
Definition samplePass :=
  Graphs.run Mem.index (Mem.sampleDisk Mem.standardYaml) skippedPackages_init
             10 Graphs.appDir false.
Definition brokenPass :=
  Graphs.run Graphs.brokenIndex Graphs.brokenDisk skippedPackages_init
             10 Graphs.appDir false.
Definition diamondPass :=
  Graphs.run Graphs.diamondIndex Graphs.diamondDisk skippedPackages_init
             10 Graphs.appDir true.
Definition appenginePass :=
  Graphs.run Graphs.flexIndex Graphs.flexDisk flexSkip 10 Graphs.appDir true.

End Runs.

Module Edges.

(** The edges of the broken graph. *)
Definition broken : list importFrom :=
  [Graphs.edge "missing/a" "app"; Graphs.edge "missing/b" "app"].

End Edges.

(** ** Further notions used to describe the program *)

(** No slash occurs in [s]. *)
Fixpoint noSlash (s : string) : bool :=
  match s with
  | EmptyString => true
  | String c rest => negb (Ascii.eqb c "/"%char) && noSlash rest
  end.

(** The packages of a list, each kept where its key first occurs. *)
Definition keepFirst (key : Package → string) (l : list Package) : list Package :=
  foldl (λ acc pkg, if decide (key pkg ∈ map key acc) then acc else acc ++ [pkg])
        [] l.

(** The packages [Import] returns for the edges of a list, in order. *)
Definition resolvedBy (Import : string → string → result Package)
    (l : list importFrom) : list Package :=
  omap (λ i, match Import (path i) (fromDir i) with
             | Ok pkg => Some pkg
             | Err _ => None
             end) l.

Section Shapes.

Variable W : World.

(** The value of [skipFiles], and the arguments of a [copyTree] call. *)
Variable skip : gmap string bool.
Variable dstRoot dstDir srcDir : string.

(** The pairs of a source directory and a destination directory that a
    [copyTree] call can reach: the pair it is given, and below a pair
    reached the two directories of one same name that is not skipped. *)
Inductive mirrored : string → string → Prop :=
| mirrored_top : mirrored srcDir dstDir
| mirrored_sub s d n :
    mirrored s d → map_get skip n = false →
    mirrored (filepath_Join W s n) (filepath_Join W d n).

(** The lines [copyTree] may print: a skipped name of [skipFiles] in a
    directory reached, or the copy of a name that is not skipped from a
    source directory reached to its mirror under [dstRoot]. *)
Definition progressLine (l : logLine) : Prop :=
  match l with
  | LogSkipping p =>
      ∃ s d n, mirrored s d ∧ map_get skip n = true ∧ p = filepath_Join W s n
  | LogCopied p q =>
      ∃ s d n, mirrored s d ∧ map_get skip n = false ∧
               p = filepath_Join W s n ∧
               q = filepath_Join W dstRoot (filepath_Join W d n)
  | _ => False
  end.

(** The directories [copyTree] may create: the mirrors under [dstRoot]. *)
Definition createdDir (p : string) : Prop :=
  ∃ s d, mirrored s d ∧ p = filepath_Join W dstRoot d.

(** From [st] to [st'] the program has printed progress lines and
    created mirrors, and has left [skipFiles] alone. *)
Definition grows (st st' : state W) : Prop :=
  skipFilesVar st' = skipFilesVar st ∧
  ∃ lines dirs,
    stderr st' = stderr st ++ lines ∧ mkdirs st' = mkdirs st ++ dirs ∧
    Forall progressLine lines ∧ Forall createdDir dirs.

End Shapes.

(** From [st] to [st'] the program has printed progress lines only. *)
Definition quiet {W} (st st' : state W) : Prop :=
  ∃ lines, stderr st' = stderr st ++ lines ∧
           Forall (λ l, isDiagnostic l = false) lines.

Section Order.

Variable Join : string → string → string.
Variable Import : string → string → result Package.

(** The packages collected so far are those resolved so far, each kept at
    its first occurrence. *)
Definition inOrder (s : loopState) : Prop :=
  packages s = keepFirst (pkgKey Join) (resolvedBy Import (attempts s)).

End Order.

(** The error below the wrappers of [copyTree] and [bundle]. *)
Fixpoint rootCause (e : error) : error :=
  match e with
  | CopyDirError _ _ e' | BundleCopyError _ _ e' => rootCause e'
  | _ => e
  end.

(** The number of wrappers of [copyTree] and [bundle] around the cause. *)
Fixpoint wrappers (e : error) : nat :=
  match e with
  | CopyDirError _ _ e' | BundleCopyError _ _ e' => S (wrappers e')
  | _ => 0
  end.

(** The error reports the failure of a library call on a path. *)
Definition isLibraryFailure (e : error) : bool :=
  match e with
  | CreateDirectoryError _ _ | ReadDirError _ _ | StatError _ _
  | OpenError _ _ | CreateError _ _ | CopyError _ _ _ | CloseError _ _ => true
  | _ => false
  end.

(** The error comes from one of the [fmt.Errorf] sites of [copyTree]. *)
Definition isTreeError (e : error) : bool :=
  match e with
  | CreateDirectoryError _ _ | ReadDirError _ _ | StatError _ _
  | CopyDirError _ _ _ => true
  | _ => false
  end.

(** The error comes from one of the [fmt.Errorf] sites of [copyFile]. *)
Definition isFileError (e : error) : bool :=
  match e with
  | OpenError _ _ | CreateError _ _ | CopyError _ _ _ | CloseError _ _ => true
  | _ => false
  end.

(** The directory of [example.com] of the sample disk, copied with its
    subdirectories into the output directory. *)
Definition libraryCopied : state Mem.sampleWorld :=
  stateOf (copyTree Mem.sampleWorld 10 "/out" "." "/gopath/src/example.com"
                    true Runs.standardStart) Runs.standardStart.

(** The sample disk with a file where the copy of [lib] is to go. *)
Definition blockedStart : state Mem.sampleWorld :=
  set_fs Runs.standardStart
         (<["/out/lib" := Mem.File "x"]> (fs Runs.standardStart)).
Definition blockedCopy : state Mem.sampleWorld :=
  stateOf (copyTree Mem.sampleWorld 10 "/out" "." "/gopath/src/example.com"
                    true blockedStart) blockedStart.
Definition blockedError : error :=
  CopyDirError "/gopath/src/example.com/lib" "lib"
    (CreateDirectoryError "/out/lib" (LibError "not a directory")).

(** A package whose directory is not on the sample disk. *)
Definition ghostPkg : Package :=
  {| Name := "ghost"; ImportPath := "example.com/ghost";
     SrcRoot := "/gopath/src"; Dir := "/gopath/src/example.com/ghost";
     Imports := [] |}.
Definition ghostError : error :=
  BundleCopyError "/gopath/src/example.com/ghost" "example.com/ghost"
    (ReadDirError "/gopath/src/example.com/ghost" Mem.noSuchFile).
Definition ghostBundled : state Mem.sampleWorld :=
  stateOf (bundle Mem.sampleWorld 10 "/gopath/src/app" "/out" ""
                  [Mem.libPkg; ghostPkg; Mem.appPkg] Runs.standardStart)
          Runs.standardStart.

(** A root package that imports standard-library packages only. *)
Definition plainRoot : Package :=
  Graphs.pkg "main" "app" ["fmt"; "net/http"; "os"].
Definition plainIndex : list Package := [plainRoot].

(** A Flexible application whose root is not package [main]. *)
Definition libraryRoot : Package := Graphs.pkg "app" "app" [].
Definition libraryWorld : World := Mem.world [libraryRoot] Mem.manifests.
Definition libraryStart : state libraryWorld :=
  initial (W := libraryWorld) Graphs.flexDisk.

(** [mergeMap] of package [templatehandler].  A [range] over a map visits
    its entries in an order that is not specified: [baseOrder] and
    [inOrder] are the orders of the two loops. *)
Definition mergeMapIn {V : Type} (baseOrder inOrder : list (string * V))
  : gmap string V :=
  let out : gmap string V := ∅ in
  let out := foldl (λ out kv, <[kv.1 := kv.2]> out) out baseOrder in
  foldl (λ out kv, <[kv.1 := kv.2]> out) out inOrder.

(** A checkout that holds nothing but version-control and CI files. *)
Definition bareCheckout : state Mem.sampleWorld :=
  initial (W := Mem.sampleWorld)
    (list_to_map
       [ ("/repo", Mem.Directory); ("/repo/.git", Mem.Directory);
         ("/repo/.git/config", Mem.File "[core]");
         ("/repo/.travis.yml", Mem.File "language: go");
         ("/out", Mem.Directory) ]).
(** * Properties of the dependency analyzer *)

Section AnalyzerFacts.

Variable Abs : string → result string.
Variable Join : string → string → string.
Variable ImportDir : string → result Package.
Variable Import : string → string → result Package.
Variable skip : gmap string bool.

Local Abbreviation step := (analyze_step Join Import skip).
Local Abbreviation loop := (analyze_loop Join Import skip).
Local Abbreviation skipped := (isSkipped skip).
Local Abbreviation key := (pkgKey Join).
Local Abbreviation resolve i := (Import (path i) (fromDir i)).

Lemma elem_of_edgesOf i d ps :
  i ∈ edgesOf d ps ↔ ∃ p, p ∈ ps ∧ i = {| path := p; fromDir := d |}.
Proof.
  unfold edgesOf. rewrite list_elem_of_fmap. split.
  - intros [p [-> Hp]]. eauto.
  - intros [p [Hp ->]]. eauto.
Qed.

(** The ways one turn of the loop can go. *)
Lemma step_cases s :
  match step s with
  | Finished s' => imports s = [] ∧ s' = s
  | Next s' =>
      ∃ i rest, imports s = i :: rest ∧
        ((covered skip {| imports := []; visited := visited s;
                          visitedPackages := visitedPackages s;
                          packages := packages s; attempts := attempts s |} i ∧
          s' = {| imports := rest; visited := visited s;
                  visitedPackages := visitedPackages s;
                  packages := packages s; attempts := attempts s |})
         ∨
         (visited s !! i = None ∧ skipped i = false ∧
          ∃ pkg, resolve i = Ok pkg ∧
            s' = {| imports := rest ++ edgesOf (Dir pkg) (Imports pkg);
                    visited := <[i := true]> (visited s);
                    visitedPackages :=
                      match visitedPackages s !! key pkg with
                      | Some _ => visitedPackages s
                      | None => <[key pkg := true]> (visitedPackages s)
                      end;
                    packages :=
                      match visitedPackages s !! key pkg with
                      | Some _ => packages s
                      | None => packages s ++ [pkg]
                      end;
                    attempts := attempts s ++ [i] |}))
  | Failed e s' =>
      ∃ i rest, imports s = i :: rest ∧
        visited s !! i = None ∧ skipped i = false ∧ resolve i = Err e ∧
        s' = {| imports := rest; visited := <[i := true]> (visited s);
                visitedPackages := visitedPackages s;
                packages := packages s; attempts := attempts s ++ [i] |}
  end.
Proof.
  unfold analyze_step. destruct (imports s) as [|i rest] eqn:Hq; [done|].
  destruct (visited s !! i) as [b|] eqn:Hv.
  { exists i, rest. split; [done|]. left. split; [|done].
    right; left. simpl. rewrite Hv. eauto. }
  destruct (isSkipped skip i) eqn:Hs.
  { exists i, rest. split; [done|]. left. split; [|done]. by right; right. }
  destruct (Import (path i) (fromDir i)) as [pkg|e] eqn:Hr.
  - exists i, rest. split; [done|]. right. repeat split; try done.
    exists pkg. split; [done|].
    by destruct (visitedPackages s !! pkgKey Join pkg).
  - exists i, rest. by repeat split.
Qed.


Section Pass.

Variable abs : string.
Variable root : Package.

Local Abbreviation reach := (reachable Import skip abs root).
Local Abbreviation Sound := (sound Join Import skip abs root).
Local Abbreviation Complete := (complete Join Import skip abs root).
Local Abbreviation Covered := (covered skip).

Lemma sound_init : Sound (initState abs root).
Proof.
  split; simpl.
  - intros i [p [Hp ->]]%elem_of_edgesOf. by constructor.
  - intros i. rewrite lookup_empty. split; [by intros [? ?] | intros []%elem_of_nil].
  - constructor.
  - intros i []%elem_of_nil.
  - intros k. rewrite lookup_empty. split; [by intros [? ?] | intros []%elem_of_nil].
  - constructor.
  - intros pkg []%elem_of_nil.
Qed.

Lemma complete_init : Complete (initState abs root).
Proof.
  split; simpl.
  - intros p Hp. left. simpl. apply elem_of_edgesOf. eauto.
  - intros i []%elem_of_nil.
Qed.

Lemma sound_pop s i rest :
  imports s = i :: rest → Sound s →
  Sound {| imports := rest; visited := visited s;
           visitedPackages := visitedPackages s;
           packages := packages s; attempts := attempts s |}.
Proof.
  intros Hq [Hqueue Hvis Hnd Hatt Hkeys Hknd Hpk]. split; simpl; try done.
  intros j Hj. apply Hqueue. rewrite Hq. by apply elem_of_cons; right.
Qed.

Lemma sound_mark s i rest q :
  imports s = i :: rest → visited s !! i = None → skipped i = false →
  (∀ j, j ∈ q → reach j) →
  Sound s →
  Sound {| imports := q; visited := <[i := true]> (visited s);
           visitedPackages := visitedPackages s;
           packages := packages s; attempts := attempts s ++ [i] |}.
Proof.
  intros Hq Hv Hs Hreach [Hqueue Hvis Hnd Hatt Hkeys Hknd Hpk].
  assert (reach i) as Hi.
  { apply Hqueue. rewrite Hq. by apply elem_of_cons; left. }
  assert (i ∉ attempts s) as Hfresh.
  { intros Hin. apply Hvis in Hin. rewrite Hv in Hin. by destruct Hin. }
  split; simpl; try done.
  - intros j. rewrite lookup_insert_is_Some, elem_of_app, list_elem_of_singleton.
    rewrite Hvis. destruct (decide (i = j)) as [->|]; intuition congruence.
  - apply NoDup_app. repeat split; [done| |apply NoDup_singleton].
    intros j Hj ->%list_elem_of_singleton. done.
  - intros j [Hj| ->%list_elem_of_singleton]%elem_of_app; [by apply Hatt|done].
  - intros pkg Hin. destruct (Hpk pkg Hin) as (j & Hj & Hr).
    exists j. split; [|done]. apply elem_of_app. by left.
Qed.

(** One turn of the loop keeps the loop variables sound. *)
Lemma step_sound s :
  Sound s →
  match step s with
  | Finished s' | Next s' | Failed _ s' => Sound s'
  end.
Proof.
  intros Hs. pose proof (step_cases s) as Hc.
  destruct (step s) as [s'|s'|e s'].
  - by destruct Hc as [_ ->].
  - destruct Hc as (i & rest & Hq & [[_ ->]|(Hv & Hsk & pkg & Hr & ->)]).
    + by eapply sound_pop.
    + assert (reach i) as Hi.
      { apply (sound_queue _ _ _ _ _ _ Hs). rewrite Hq.
        by apply elem_of_cons; left. }
      assert (Sound {| imports := rest ++ edgesOf (Dir pkg) (Imports pkg);
                       visited := <[i := true]> (visited s);
                       visitedPackages := visitedPackages s;
                       packages := packages s;
                       attempts := attempts s ++ [i] |}) as Hm.
      { eapply sound_mark; try done.
        intros j [Hj|(p & Hp & ->)%elem_of_edgesOf]%elem_of_app.
        - apply (sound_queue _ _ _ _ _ _ Hs). rewrite Hq.
          by apply elem_of_cons; right.
        - by eapply reachable_import. }
      destruct Hm as [Hqueue Hvis Hnd Hatt Hkeys Hknd Hpk]. simpl in *.
      destruct (visitedPackages s !! key pkg) as [b|] eqn:Hk.
      { by split. }
      assert (key pkg ∉ map key (packages s)) as Hfresh.
      { intros Hin. apply Hkeys in Hin. rewrite Hk in Hin. by destruct Hin. }
      split; simpl; try done.
      * intros k. rewrite lookup_insert_is_Some, map_app, elem_of_app.
        simpl. rewrite list_elem_of_singleton, Hkeys.
        destruct (decide (key pkg = k)) as [->|]; intuition congruence.
      * rewrite map_app. apply NoDup_app. repeat split; [done| |apply NoDup_singleton].
        intros k Hin ->%list_elem_of_singleton. done.
      * intros pkg' [Hin| ->%list_elem_of_singleton]%elem_of_app.
        -- by apply Hpk.
        -- exists i. split; [|done]. apply elem_of_app. right.
           by apply list_elem_of_singleton.
  - destruct Hc as (i & rest & Hq & Hv & Hsk & Hr & ->).
    eapply sound_mark; try done.
    intros j Hj. apply (sound_queue _ _ _ _ _ _ Hs). rewrite Hq.
    by apply elem_of_cons; right.
Qed.

Lemma covered_mono s s' i :
  (∀ j, j ∈ imports s → Covered s' j) →
  (∀ j, is_Some (visited s !! j) → is_Some (visited s' !! j)) →
  Covered s i → Covered s' i.
Proof.
  intros Hq Hv [Hi|[Hi|Hi]].
  - by apply Hq.
  - right; left. by apply Hv.
  - by right; right.
Qed.

(** One turn that does not fail keeps the loop variables complete. *)
Lemma step_complete s s' :
  Sound s → Complete s → step s = Next s' → Complete s'.
Proof.
  intros Hs [Hseed Hatt] Hstep. pose proof (step_cases s) as Hc.
  rewrite Hstep in Hc.
  destruct Hc as (i & rest & Hq & [[Hi ->]|(Hv & Hsk & pkg & Hr & ->)]).
  - assert (∀ j, Covered s j →
                 Covered {| imports := rest; visited := visited s;
                            visitedPackages := visitedPackages s;
                            packages := packages s;
                            attempts := attempts s |} j) as Hmono.
    { intros j. apply covered_mono; simpl; [|done].
      intros j'. rewrite Hq. intros [->|Hj']%elem_of_cons.
      - destruct Hi as [[]%elem_of_nil|Hi]. by right.
      - by left. }
    split; simpl.
    + intros p Hp. by apply Hmono, Hseed.
    + intros j Hj. destruct (Hatt j Hj) as (pkg & Hr & Hk & Hch).
      exists pkg. repeat split; try done. intros p Hp. by apply Hmono, Hch.
  - set (s' := {| imports := rest ++ edgesOf (Dir pkg) (Imports pkg);
                  visited := <[i := true]> (visited s);
                  visitedPackages := _; packages := _;
                  attempts := attempts s ++ [i] |}).
    assert (∀ j, Covered s j → Covered s' j) as Hmono.
    { intros j. apply covered_mono; simpl.
      - intros j'. rewrite Hq. intros [->|Hj']%elem_of_cons.
        + right; left. simpl. rewrite lookup_insert_eq. eauto.
        + left. simpl. apply elem_of_app. by left.
      - intros j' Hj'. rewrite lookup_insert_is_Some.
        destruct (decide (i = j')); [by left|by right]. }
    assert (∀ k, k ∈ map key (packages s) → k ∈ map key (packages s')) as Hkeys.
    { intros k Hk. simpl. destruct (visitedPackages s !! key pkg); [done|].
      rewrite map_app. apply elem_of_app. by left. }
    split.
    + intros p Hp. by apply Hmono, Hseed.
    + intros j [Hj| ->%list_elem_of_singleton]%elem_of_app.
      * destruct (Hatt j Hj) as (pkg' & Hr' & Hk & Hch).
        exists pkg'. repeat split; try done; [by apply Hkeys|].
        intros p Hp. by apply Hmono, Hch.
      * exists pkg. repeat split; try done.
        -- simpl. destruct (visitedPackages s !! key pkg) as [b|] eqn:Hk.
           ++ apply (sound_keys _ _ _ _ _ _ Hs). rewrite Hk. eauto.
           ++ rewrite map_app. apply elem_of_app. right. simpl.
              by apply list_elem_of_singleton.
        -- intros p Hp. left. simpl. apply elem_of_app. right.
           apply elem_of_edgesOf. eauto.
Qed.

(** The loop, when it returns, returns sound loop variables; when it
    returns a list, that list is the final [packages], the queue is
    empty, and completeness carries over. *)
Lemma loop_sound fuel s r s' :
  Sound s → loop fuel s = Some (r, s') →
  Sound s' ∧
  (∀ pkgs, r = Ok pkgs →
           pkgs = packages s' ∧ imports s' = [] ∧ (Complete s → Complete s')).
Proof.
  revert s. induction fuel as [|fuel IH]; intros s Hs Hrun; [done|].
  simpl in Hrun. pose proof (step_sound s Hs) as Hs'.
  pose proof (step_cases s) as Hc.
  destruct (step s) as [s1|s1|e s1] eqn:Hstep.
  - injection Hrun as <- <-. destruct Hc as [Hq ->]. split; [done|].
    intros pkgs [= <-]. done.
  - destruct (IH s1 Hs' Hrun) as [Hsound Hok]. split; [done|].
    intros pkgs Hr. destruct (Hok pkgs Hr) as (-> & Hq & Hcomp).
    split; [done|]. split; [done|]. intros Hcs. apply Hcomp.
    exact (step_complete s s1 Hs Hcs Hstep).
  - injection Hrun as <- <-. split; [done|]. intros pkgs [=].
Qed.

(** Once the queue is empty, every reachable edge that is not skipped
    has been handed to [Import]. *)
Lemma drained_attempts s :
  Sound s → Complete s → imports s = [] →
  ∀ i, reach i → skipped i = false → i ∈ attempts s.
Proof.
  intros Hs [Hseed Hatt] Hq.
  assert (∀ j, Covered s j → skipped j = false → j ∈ attempts s) as Hcov.
  { intros j [Hj|[Hj|Hj]] Hsk.
    - rewrite Hq in Hj. by apply elem_of_nil in Hj.
    - by apply (sound_visited _ _ _ _ _ _ Hs).
    - congruence. }
  intros i Hi. induction Hi as [p Hp|i pkg p Hi IH Hsk Hr Hp]; intros Hski.
  - apply Hcov; [by apply Hseed|done].
  - apply Hcov; [|done]. destruct (Hatt i (IH Hsk)) as (pkg' & Hr' & _ & Hch).
    rewrite Hr in Hr'. injection Hr' as <-. by apply Hch.
Qed.

(** The loop returns as soon as the fuel exceeds a bound, provided the
    reachable edges all lie in one finite set: each turn either
    shortens the queue or marks a new edge of that set. *)
Lemma loop_total (U : gset importFrom) :
  (∀ i, reach i → i ∈ U) →
  ∀ s, Sound s →
       ∃ n r s', ∀ fuel, (n ≤ fuel)%nat → loop fuel s = Some (r, s').
Proof.
  intros HU s. remember (size (U ∖ dom (visited s))) as k eqn:Hk.
  revert s Hk. induction k as [k IH] using lt_wf_ind. intros s Hk.
  destruct s as [q v vp pk att]. simpl in Hk.
  induction q as [|i rest IHq]; intros Hs.
  - exists 1, (Ok pk), {| imports := []; visited := v; visitedPackages := vp;
                          packages := pk; attempts := att |}.
    intros [|fuel] Hle; [lia|done].
  - pose proof (step_sound _ Hs) as Hs'. pose proof (step_cases
      {| imports := i :: rest; visited := v; visitedPackages := vp;
         packages := pk; attempts := att |}) as Hc.
    destruct (step _) as [s1|s1|e s1] eqn:Hstep.
    + by destruct Hc as [[=] _].
    + assert (∃ n r s', ∀ fuel, (n ≤ fuel)%nat → loop fuel s1 = Some (r, s'))
        as (n & r & s' & Hn).
      { destruct Hc as (i' & rest' & [= <- <-] &
                        [[_ ->]|(Hv & Hsk & pkg & Hr & ->)]).
        - by apply IHq.
        - simpl in *. eapply (IH _ _ _ eq_refl Hs'). Unshelve. subst k.
          simpl. apply subset_size.
          assert (i ∈ U) as HiU.
          { apply HU, (sound_queue _ _ _ _ _ _ Hs). by apply elem_of_cons; left. }
          assert (i ∉ dom v) as Hiv by by apply not_elem_of_dom.
          rewrite dom_insert_L. split.
          + intros j. rewrite !elem_of_difference, elem_of_union. tauto.
          + intros Hsub. specialize (Hsub i).
            rewrite !elem_of_difference, elem_of_union, elem_of_singleton
              in Hsub.
            destruct (Hsub (conj HiU Hiv)) as [_ Hn]. apply Hn. by left. }
      exists (S n), r, s'. intros [|fuel] Hle; [lia|]. simpl.
      rewrite Hstep. apply Hn. lia.
    + exists 1, (Err e), s1. intros [|fuel] Hle; [lia|]. simpl.
      by rewrite Hstep.
Qed.

(** A pass that returns an error returns the error of some reachable,
    unskipped edge. *)
Lemma loop_error fuel s e s' :
  Sound s → loop fuel s = Some (Err e, s') →
  ∃ i, reach i ∧ skipped i = false ∧ resolve i = Err e.
Proof.
  revert s. induction fuel as [|fuel IH]; intros s Hs Hrun; [done|].
  simpl in Hrun. pose proof (step_sound s Hs) as Hs'.
  pose proof (step_cases s) as Hc.
  destruct (step s) as [s1|s1|e1 s1] eqn:Hstep.
  - done.
  - by apply (IH s1).
  - injection Hrun as <- <-.
    destruct Hc as (i & rest & Hq & Hv & Hsk & Hr & ->).
    exists i. repeat split; try done.
    apply (sound_queue _ _ _ _ _ _ Hs). rewrite Hq. by apply elem_of_cons; left.
Qed.

Lemma sound_empty : Sound emptyState.
Proof.
  split; simpl.
  - intros i []%elem_of_nil.
  - intros i. rewrite lookup_empty. split; [by intros [? ?] | intros []%elem_of_nil].
  - constructor.
  - intros i []%elem_of_nil.
  - intros k. rewrite lookup_empty. split; [by intros [? ?] | intros []%elem_of_nil].
  - constructor.
  - intros pkg []%elem_of_nil.
Qed.

Variable dir : string.
Hypothesis Habs : Abs dir = Ok abs.
Hypothesis Hroot : ImportDir abs = Ok root.

Local Abbreviation run := (analyze_run Abs Join ImportDir Import skip).

(** What a pass that returns leaves behind. *)
Lemma analyze_run_sound fuel enforceMain r s :
  run fuel dir enforceMain = Some (r, s) →
  Sound s ∧
  (∀ pkgs, r = Ok pkgs →
           pkgs = packages s ∧ imports s = [] ∧ Complete s).
Proof.
  unfold analyze_run. rewrite Habs, Hroot.
  destruct (enforceMain && negb (IsCommand root)).
  - intros [= <- <-]. split; [apply sound_empty|]. intros pkgs [=].
  - intros Hrun.
    destruct (loop_sound _ _ _ _ sound_init Hrun) as [Hs Hok].
    split; [done|]. intros pkgs Hr.
    destruct (Hok pkgs Hr) as (-> & Hq & Hc).
    repeat split; try done; apply Hc, complete_init.
Qed.

(** Every package of the output was obtained from [Import], for a
    reachable edge that is not skipped. *)
Lemma analyze_run_packages fuel enforceMain pkgs s :
  run fuel dir enforceMain = Some (Ok pkgs, s) →
  ∀ pkg, pkg ∈ pkgs →
         ∃ i, i ∈ attempts s ∧ reach i ∧ skipped i = false ∧
              resolve i = Ok pkg.
Proof.
  intros Hrun pkg Hin.
  destruct (analyze_run_sound _ _ _ _ Hrun) as [Hs Hok].
  destruct (Hok pkgs eq_refl) as (-> & _ & _).
  destruct (sound_packages _ _ _ _ _ _ Hs pkg Hin) as (i & Hi & Hr).
  destruct (sound_attempts _ _ _ _ _ _ Hs i Hi) as [Hreach Hsk].
  by exists i.
Qed.

(** Every reachable edge that is not skipped contributes the key of
    its package to the output. *)
Lemma analyze_run_covers fuel enforceMain pkgs s i pkg :
  run fuel dir enforceMain = Some (Ok pkgs, s) →
  reach i → skipped i = false → resolve i = Ok pkg →
  i ∈ attempts s ∧ key pkg ∈ map key pkgs.
Proof.
  intros Hrun Hi Hsk Hr.
  destruct (analyze_run_sound _ _ _ _ Hrun) as [Hs Hok].
  destruct (Hok pkgs eq_refl) as (-> & Hq & Hc).
  pose proof (drained_attempts s Hs Hc Hq i Hi Hsk) as Hatt.
  split; [done|].
  destruct (complete_attempts _ _ _ _ _ _ Hc i Hatt) as (pkg' & Hr' & Hk & _).
  rewrite Hr in Hr'. by injection Hr' as <-.
Qed.

End Pass.

Local Abbreviation run := (analyze_run Abs Join ImportDir Import skip).
Local Abbreviation reach := (reachable Import skip).

Lemma keyed_once (pkgs : list Package) (pkg : Package) :
  NoDup (map key pkgs) → key pkg ∈ map key pkgs →
  length (filter (λ p, key p = key pkg) pkgs) = 1.
Proof.
  induction pkgs as [|p pkgs IH]; simpl.
  - intros _ []%elem_of_nil.
  - intros [Hp Hnd]%NoDup_cons Hin. rewrite filter_cons.
    destruct (decide (key p = key pkg)) as [Heq|Hne]; simpl.
    + f_equal. apply length_zero_iff_nil, elem_of_nil_inv.
      intros q [Hk Hq]%list_elem_of_filter. apply Hp. rewrite Heq, <- Hk.
      by apply list_elem_of_fmap_2.
    + apply IH; [done|]. apply elem_of_cons in Hin as [Hin|Hin]; [congruence|done].
Qed.

(** C5 (amended): one pass marks each distinct (importPath,
    originDirectory) pair visited at most once, and hands to [Import]
    exactly the pairs it marks; every such pair is reachable from the
    root and has a first segment that [skippedPackages] does not map to
    [true] (skipped pairs are neither marked nor resolved).  When the
    pass succeeds, the resolution attempts are exactly the distinct
    reachable pairs that are not skipped, so their number is the number
    of those pairs. *)
Theorem analyze_attempts_exact fuel dir enforceMain abs root r s :
  Abs dir = Ok abs → ImportDir abs = Ok root →
  run fuel dir enforceMain = Some (r, s) →
  NoDup (attempts s) ∧
  (∀ i, is_Some (visited s !! i) ↔ i ∈ attempts s) ∧
  (∀ i, i ∈ attempts s → reach abs root i ∧ skipped i = false) ∧
  (∀ pkgs U, r = Ok pkgs → NoDup U →
     (∀ i, i ∈ U ↔ reach abs root i ∧ skipped i = false) →
     length (attempts s) = length U).
Proof.
  intros Habs Hroot Hrun.
  destruct (analyze_run_sound abs root dir Habs Hroot _ _ _ _ Hrun) as [Hs Hok].
  split; [apply (sound_nodup _ _ _ _ _ _ Hs)|].
  split; [apply (sound_visited _ _ _ _ _ _ Hs)|].
  split; [apply (sound_attempts _ _ _ _ _ _ Hs)|].
  intros pkgs U -> HU HUreach.
  destruct (Hok pkgs eq_refl) as (_ & Hq & Hc).
  apply Permutation_length, NoDup_Permutation;
    [apply (sound_nodup _ _ _ _ _ _ Hs)|done|].
  intros i. rewrite HUreach. split.
  - apply (sound_attempts _ _ _ _ _ _ Hs).
  - intros [Hi Hsk]. by apply (drained_attempts abs root s).
Qed.


(** C7: the output of a successful pass holds no directory key
    ([SrcRoot] joined with [ImportPath]) twice; in particular, when the
    root imports A and B (in either order, among any other imports) and
    both import C, resolved to the same directory key either way,
    exactly one package of the output has the key of C. *)
Theorem analyze_diamond_once fuel dir enforceMain abs root pkgs s
    a b c pkgA pkgB pkgC pkgC' :
  Abs dir = Ok abs → ImportDir abs = Ok root →
  run fuel dir enforceMain = Some (Ok pkgs, s) →
  a ∈ Imports root → b ∈ Imports root →
  skipped {| path := a; fromDir := abs |} = false →
  skipped {| path := b; fromDir := abs |} = false →
  Import a abs = Ok pkgA → Import b abs = Ok pkgB →
  c ∈ Imports pkgA → c ∈ Imports pkgB →
  map_get skip (firstPart c) = false →
  Import c (Dir pkgA) = Ok pkgC → Import c (Dir pkgB) = Ok pkgC' →
  key pkgC = key pkgC' →
  NoDup (map key pkgs) ∧
  length (filter (λ p, key p = key pkgC) pkgs) = 1.
Proof.
  intros Habs Hroot Hrun Ha Hb Hska Hskb HA HB HcA HcB Hskc HC HC' Hkey.
  destruct (analyze_run_sound abs root dir Habs Hroot _ _ _ _ Hrun) as [Hs Hok].
  destruct (Hok pkgs eq_refl) as (Heq & _ & _).
  assert (NoDup (map key pkgs)) as Hnd.
  { rewrite Heq. apply (sound_keys_nodup _ _ _ _ _ _ Hs). }
  split; [done|]. apply keyed_once; [done|].
  assert (reach abs root {| path := c; fromDir := Dir pkgA |}) as Hc.
  { eapply (reachable_import _ _ _ _ {| path := a; fromDir := abs |}); try done.
    by constructor. }
  by destruct (analyze_run_covers abs root dir Habs Hroot
                 _ _ _ _ _ _ Hrun Hc Hskc HC).
Qed.

(** C8 (amended): every package of the output was returned by [Import]
    for an import edge whose path has a first segment that
    [skippedPackages], as it stands during the pass, does not map to
    [true]; when [Import] returns packages under the import path it was
    asked for, no package of the output has an [ImportPath] whose first
    segment is mapped to [true]. *)
Theorem analyze_output_not_skipped fuel dir enforceMain pkgs s pkg :
  run fuel dir enforceMain = Some (Ok pkgs, s) →
  pkg ∈ pkgs →
  (∃ i, i ∈ attempts s ∧ resolve i = Ok pkg ∧
        map_get skip (firstPart (path i)) = false) ∧
  ((∀ p d q, Import p d = Ok q → ImportPath q = p) →
   map_get skip (firstPart (ImportPath pkg)) = false).
Proof.
  intros Hrun Hin.
  assert (∃ abs root, Abs dir = Ok abs ∧ ImportDir abs = Ok root)
    as (abs & root & Habs & Hroot).
  { unfold analyze_run in Hrun. destruct (Abs dir) as [abs|]; [|done].
    destruct (ImportDir abs) as [root|] eqn:Hroot; [|done].
    by exists abs, root. }
  destruct (analyze_run_packages abs root dir Habs Hroot _ _ _ _ Hrun pkg Hin)
    as (i & Hi & _ & Hsk & Hr).
  split; [by exists i|].
  intros Hpath. by rewrite (Hpath _ _ _ Hr).
Qed.

(** C9: when [enforceMain] is set and the package of the root directory
    is not a command, [analyze] fails with the entry-point error; no
    import has been handed to [Import], none is queued or marked, and
    no package has been collected. *)
Theorem analyze_not_main fuel dir abs root :
  Abs dir = Ok abs → ImportDir abs = Ok root → IsCommand root = false →
  analyze Abs Join ImportDir Import skip fuel dir true
  = Some (Err (NotMainError (Name root))) ∧
  ∃ s, run fuel dir true = Some (Err (NotMainError (Name root)), s) ∧
       attempts s = [] ∧ packages s = [] ∧ visited s = ∅ ∧ imports s = [].
Proof.
  intros Habs Hroot Hcmd. unfold analyze, analyze_run.
  rewrite Habs, Hroot, Hcmd. simpl. split; [done|]. by exists emptyState.
Qed.

(** C10: the package of the root directory is never appended to the
    output as such: every package of the output was returned by
    [Import] for an import of the root or of a package that a
    reachable, unskipped edge resolved to; so the output is empty when
    all imports of the root are skipped, and it holds the root only if
    some import resolves to it. *)
Theorem analyze_output_from_imports fuel dir enforceMain abs root pkgs s :
  Abs dir = Ok abs → ImportDir abs = Ok root →
  run fuel dir enforceMain = Some (Ok pkgs, s) →
  (∀ pkg, pkg ∈ pkgs →
     ∃ importer d p,
       p ∈ Imports importer ∧ Import p d = Ok pkg ∧
       map_get skip (firstPart p) = false ∧
       ((importer = root ∧ d = abs) ∨
        (d = Dir importer ∧
         ∃ j, reach abs root j ∧ skipped j = false ∧ resolve j = Ok importer))) ∧
  ((∀ p, p ∈ Imports root → map_get skip (firstPart p) = true) → pkgs = []).
Proof.
  intros Habs Hroot Hrun.
  assert (∀ pkg, pkg ∈ pkgs →
     ∃ importer d p,
       p ∈ Imports importer ∧ Import p d = Ok pkg ∧
       map_get skip (firstPart p) = false ∧
       ((importer = root ∧ d = abs) ∨
        (d = Dir importer ∧
         ∃ j, reach abs root j ∧ skipped j = false ∧ resolve j = Ok importer)))
    as Hfrom.
  { intros pkg Hin.
    destruct (analyze_run_packages abs root dir Habs Hroot _ _ _ _ Hrun pkg Hin)
      as (i & _ & Hi & Hsk & Hr).
    destruct Hi as [p Hp|j importer p Hj Hskj Hrj Hp].
    - exists root, abs, p. repeat split; try done. by left.
    - exists importer, (Dir importer), p. repeat split; try done.
      right. split; [done|]. by exists j. }
  split; [done|]. intros Hall.
  assert (∀ i, reach abs root i → skipped i = false → False) as Hnone.
  { intros i Hi. induction Hi as [p Hp|j importer p Hj IH Hskj Hrj Hp].
    - unfold isSkipped. simpl. rewrite (Hall p Hp). done.
    - intros _. by apply IH. }
  destruct pkgs as [|pkg pkgs]; [done|]. exfalso.
  destruct (analyze_run_packages abs root dir Habs Hroot _ _ _ _ Hrun pkg)
    as (i & _ & Hi & Hsk & _); [by left|].
  by apply (Hnone i).
Qed.

End AnalyzerFacts.

(** * Properties of the tree copier, the bundler and the orchestrator *)

Section StagerFacts.

Variable W : World.

Local Abbreviation Join := (filepath_Join W).

(** ** What the copying functions leave alone *)

Section Preserved.

Variable R : state W → state W → Prop.
Hypothesis R_refl : ∀ st, R st st.
Hypothesis R_trans : ∀ st1 st2 st3, R st1 st2 → R st2 st3 → R st1 st3.
Hypothesis R_fs : ∀ st d, R st (set_fs st d).
Hypothesis R_log : ∀ st l, R st (log st l).
Hypothesis R_mkdir : ∀ st d, R st (note_mkdir st d).

Lemma copyFile_preserves dstRoot dst src st r st' :
  copyFile W dstRoot dst src st = (r, st') → R st st'.
Proof.
  unfold copyFile. destruct (os_Open W (fs st) src); [by intros [= <- <-]|].
  destruct (os_Create W (fs st) _) as [d1 [e|]]; [by intros [= <- <-]|].
  destruct (io_Copy W d1 _ src) as [d2 [e|]]; [by intros [= <- <-]|].
  destruct (file_Close W d2 _) as [d3 [e|]]; by intros [= <- <-].
Qed.

Lemma copyEntries_preserves recur dstRoot dstDir srcDir recursive entries :
  (∀ d s st r st', recur d s st = Some (r, st') → R st st') →
  ∀ st r st',
    copyEntries W recur dstRoot dstDir srcDir recursive entries st
    = Some (r, st') → R st st'.
Proof.
  intros Hrecur. induction entries as [|entry rest IH]; intros st r st'; simpl.
  - by intros [= <- <-].
  - destruct (map_get (skipFilesVar st) (fiName entry)).
    { intros Hrun. eapply R_trans; [apply R_log|by apply IH in Hrun]. }
    destruct (if fiSymlink entry then _ else _) as [entry'|e];
      [|by intros [= <- <-]].
    destruct (fiIsDir entry').
    + destruct (negb recursive); [by apply IH|].
      destruct (recur _ _ st) as [[[e|] st1]|] eqn:Hrec; [| |done].
      * intros [= <- <-]. by eapply Hrecur.
      * intros Hrun. eapply R_trans; [by eapply Hrecur|by apply IH in Hrun].
    + destruct (copyFile W _ _ _ st) as [[e|] st1] eqn:Hcopy.
      * intros [= <- <-]. by eapply copyFile_preserves.
      * intros Hrun. eapply R_trans; [by eapply copyFile_preserves|].
        eapply R_trans; [apply R_log|by apply IH in Hrun].
Qed.

Lemma copyTree_preserves fuel dstRoot dstDir srcDir recursive st r st' :
  copyTree W fuel dstRoot dstDir srcDir recursive st = Some (r, st') →
  R st st'.
Proof.
  revert dstDir srcDir st r st'.
  induction fuel as [|fuel IH]; intros dstDir srcDir st r st'; [done|]. simpl.
  assert (∀ d1, R st (note_mkdir (set_fs st d1) (Join dstRoot dstDir))) as Hmk.
  { intros d1. eapply R_trans; [apply R_fs|apply R_mkdir]. }
  destruct (os_MkdirAll W (fs st) _) as [d1 [e|]]; [by intros [= <- <-]|].
  destruct (ioutil_ReadDir W d1 srcDir) as [entries|e]; [|by intros [= <- <-]].
  intros Hrun. eapply R_trans; [apply Hmk|].
  eapply copyEntries_preserves; [|done].
  intros d s st1 r1 st1'. apply IH.
Qed.

Lemma bundle_preserves fuel src dst vendorDir deps st r st' :
  bundle W fuel src dst vendorDir deps st = Some (r, st') → R st st'.
Proof.
  revert st. induction deps as [|pkg rest IH]; intros st; simpl.
  - by intros [= <- <-].
  - destruct (copyTree W fuel dst _ _ false st) as [[[e|] st1]|] eqn:Hcopy;
      [| |done].
    + intros [= <- <-]. by eapply copyTree_preserves.
    + intros Hrun. eapply R_trans; [by eapply copyTree_preserves|by apply IH].
Qed.

Lemma passes_preserves fuel src dst tags enforceMain vendorDir levels st b st' :
  passes W fuel src dst tags enforceMain vendorDir levels st = Some (b, st') →
  R st st'.
Proof.
  revert st. induction levels as [|mv rest IH]; intros st; simpl.
  - by intros [= <- <-].
  - destruct (analyzeIn W st fuel src _ enforceMain) as [[deps|e]|]; [| |done].
    + destruct (bundle W fuel src dst vendorDir deps st)
        as [[[e|] st1]|] eqn:Hb; [| |done].
      * intros [= <- <-]. eapply R_trans; [by eapply bundle_preserves|apply R_log].
      * intros Hrun. eapply R_trans; [by eapply bundle_preserves|by apply IH].
    + intros [= <- <-]. apply R_log.
Qed.

Lemma rootCopy_preserves fuel src dst st code st' :
  rootCopy W fuel src dst st = Some (code, st') → R st st'.
Proof.
  unfold rootCopy.
  destruct (copyTree W fuel dst "." src true st) as [[[e|] st1]|] eqn:Hc;
    [| |done].
  - intros [= <- <-]. eapply R_trans; [by eapply copyTree_preserves|apply R_log].
  - intros [= <- <-]. by eapply copyTree_preserves.
Qed.

End Preserved.

(** ** The non-recursive mode of the tree copier *)

Lemma copyEntries_flat_total dstRoot dstDir srcDir entries st :
  ∃ r st', ∀ recur,
    copyEntries W recur dstRoot dstDir srcDir false entries st = Some (r, st').
Proof.
  revert st. induction entries as [|entry rest IH]; intros st; simpl.
  - by exists None, st.
  - destruct (map_get (skipFilesVar st) (fiName entry)); [apply IH|].
    destruct (if fiSymlink entry then _ else _) as [entry'|e].
    + destruct (fiIsDir entry'); [apply IH|].
      destruct (copyFile W _ _ _ st) as [[e|] st1]; [|apply IH].
      by eexists _, _.
    + by eexists _, _.
Qed.

Lemma copyEntries_flat_mkdirs recur dstRoot dstDir srcDir entries st r st' :
  copyEntries W recur dstRoot dstDir srcDir false entries st = Some (r, st') →
  mkdirs st' = mkdirs st.
Proof.
  destruct (copyEntries_flat_total dstRoot dstDir srcDir entries st)
    as (r0 & st0 & Hflat).
  rewrite (Hflat recur). intros [= <- <-].
  apply (copyEntries_preserves (λ st1 st2, mkdirs st2 = mkdirs st1))
    with (recur := λ _ _ _, None) (dstRoot := dstRoot) (dstDir := dstDir)
         (srcDir := srcDir) (recursive := false) (entries := entries) (r := r0);
    try done.
  intros st1 st2 st3 H12 H23. by rewrite H23.
Qed.

(** A non-recursive copy needs no recursion: it returns at depth one,
    and creates the one directory it was asked for. *)
Lemma copyTree_flat dstRoot dstDir srcDir st :
  ∃ r st',
    (∀ fuel, copyTree W (S fuel) dstRoot dstDir srcDir false st = Some (r, st')) ∧
    mkdirs st' = mkdirs st ++ [Join dstRoot dstDir].
Proof.
  simpl. destruct (os_MkdirAll W (fs st) _) as [d1 [e|]].
  { by eexists _, _. }
  destruct (ioutil_ReadDir W d1 srcDir) as [entries|e].
  - destruct (copyEntries_flat_total dstRoot dstDir srcDir entries
                (note_mkdir (set_fs st d1) (Join dstRoot dstDir)))
      as (r & st' & Hflat).
    exists r, st'. split; [intros fuel; apply Hflat|].
    by rewrite (copyEntries_flat_mkdirs _ _ _ _ _ _ _ _ (Hflat (λ _ _ _, None))).
  - by eexists _, _.
Qed.

Lemma bundle_cons fuel src dst vendorDir pkg rest st :
  bundle W fuel src dst vendorDir (pkg :: rest) st =
  match copyTree W fuel dst (Join vendorDir (ImportPath pkg))
                 (Join (SrcRoot pkg) (ImportPath pkg)) false st with
  | None => None
  | Some (Some e, st') =>
      Some (Some (BundleCopyError (Join (SrcRoot pkg) (ImportPath pkg))
                                  (Join vendorDir (ImportPath pkg)) e), st')
  | Some (None, st') => bundle W fuel src dst vendorDir rest st'
  end.
Proof. done. Qed.

(** One non-recursive copy per package, each creating its target. *)
Lemma bundle_flat src dst vendorDir deps st :
  ∃ r st',
    (∀ fuel, bundle W (S fuel) src dst vendorDir deps st = Some (r, st')) ∧
    (∃ done, done `prefix_of` deps ∧
             mkdirs st' = mkdirs st ++ map (vendorTarget W dst vendorDir) done) ∧
    (r = None →
     mkdirs st' = mkdirs st ++ map (vendorTarget W dst vendorDir) deps).
Proof.
  revert st. induction deps as [|pkg rest IH]; intros st.
  - exists None, st. split; [done|]. split; [|by rewrite app_nil_r].
    exists []. by rewrite app_nil_r.
  - destruct (copyTree_flat dst (Join vendorDir (ImportPath pkg))
                (Join (SrcRoot pkg) (ImportPath pkg)) st)
      as (r1 & st1 & Hcopy & Hmk).
    destruct r1 as [e|].
    + eexists _, st1. split; [intros fuel; by rewrite bundle_cons, Hcopy|].
      split; [|done]. exists [pkg]. split; [|done].
      by exists rest.
    + destruct (IH st1) as (r & st' & Hrest & (done & Hpre & Hdone) & Hall).
      exists r, st'. split; [intros fuel; by rewrite bundle_cons, Hcopy|].
      split.
      * exists (pkg :: done). split; [by apply prefix_cons|].
        rewrite Hdone, Hmk, <- app_assoc. done.
      * intros Hr. rewrite (Hall Hr), Hmk, <- app_assoc. done.
Qed.

(** C2 (amended): for every invocation of the Bundler, each package's
    on-disk directory is copied into outputRoot/vendorSubdir/importPath
    by a non-recursive Tree Copier call: the copy returns at recursion
    depth one whatever the package directories hold, one directory is
    created per package copied, namely that target, and none below it;
    the recursive mode of the Tree Copier is never used by the
    Bundler. *)
Theorem bundle_copies_flat src dst vendorDir deps st :
  ∃ r st',
    (∀ fuel, bundle W (S fuel) src dst vendorDir deps st = Some (r, st')) ∧
    (∃ done, done `prefix_of` deps ∧
             mkdirs st' = mkdirs st ++ map (vendorTarget W dst vendorDir) done) ∧
    (r = None →
     mkdirs st' = mkdirs st ++ map (vendorTarget W dst vendorDir) deps) ∧
    (∀ pkg rest, deps = pkg :: rest →
       ∃ r1 st1,
         (∀ fuel, copyTree W (S fuel) dst (Join vendorDir (ImportPath pkg))
                           (Join (SrcRoot pkg) (ImportPath pkg)) false st
                  = Some (r1, st1)) ∧
         mkdirs st1 = mkdirs st ++ [vendorTarget W dst vendorDir pkg]).
Proof.
  destruct (bundle_flat src dst vendorDir deps st)
    as (r & st' & Hrun & Hdone & Hall).
  exists r, st'. repeat split; try done.
  intros pkg rest _. apply copyTree_flat.
Qed.

(** ** The package-level maps and the output streams *)

Lemma same_globals_refl (st : state W) : same_globals st st.
Proof. done. Qed.

Lemma same_globals_trans (st1 st2 st3 : state W) :
  same_globals st1 st2 → same_globals st2 st3 → same_globals st1 st3.
Proof.
  intros (H1 & H2 & H3) (H4 & H5 & H6).
  repeat split; congruence.
Qed.

Lemma passes_globals fuel src dst tags enforceMain vendorDir levels st b st' :
  passes W fuel src dst tags enforceMain vendorDir levels st = Some (b, st') →
  same_globals st st'.
Proof.
  apply passes_preserves; try done. apply same_globals_trans.
Qed.

Lemma rootCopy_globals fuel src dst st code st' :
  rootCopy W fuel src dst st = Some (code, st') → same_globals st st'.
Proof.
  apply rootCopy_preserves; try done. apply same_globals_trans.
Qed.

Lemma passes_failed fuel src dst tags enforceMain vendorDir levels st st' :
  passes W fuel src dst tags enforceMain vendorDir levels st = Some (false, st') →
  ∃ st0 l, st' = log st0 l ∧ isDiagnostic l = true.
Proof.
  revert st. induction levels as [|mv rest IH]; intros st; simpl; [done|].
  destruct (analyzeIn W st fuel src _ enforceMain) as [[deps|e]|]; [| |done].
  - destruct (bundle W fuel src dst vendorDir deps st) as [[[e|] st1]|];
      [| |done].
    + intros [= <-]. by eexists _, _.
    + apply IH.
  - intros [= <-]. by eexists _, _.
Qed.

Lemma rootCopy_status fuel src dst st code st' :
  rootCopy W fuel src dst st = Some (code, st') →
  code = 0 ∨ (code = 1 ∧ ∃ st0 l, st' = log st0 l ∧ isDiagnostic l = true).
Proof.
  unfold rootCopy.
  destruct (copyTree W fuel dst "." src true st) as [[[e|] st1]|]; [| |done].
  - intros [= <- <-]. right. split; [done|]. by eexists _, _.
  - intros [= <- <-]. by left.
Qed.

Lemma stage_globals fuel c src dst st code st' :
  stage W fuel c src dst st = Some (code, st') →
  stdout st' = stdout st ∧
  skipFilesVar st' = skipFilesVar st ∧
  skippedPackages st' =
    (if isFlex c then <["appengine" := false]> (skippedPackages st)
     else skippedPackages st).
Proof.
  unfold stage. destruct (isFlex c).
  - destruct (passes W fuel src dst _ _ _ _ _) as [[[|] st1]|] eqn:Hp; [| |done].
    + intros (H1 & H2 & H3)%rootCopy_globals.
      destruct (passes_globals _ _ _ _ _ _ _ _ _ _ Hp) as (H4 & H5 & H6).
      simpl in *. repeat split; congruence.
    + intros [= <- <-].
      destruct (passes_globals _ _ _ _ _ _ _ _ _ _ Hp) as (H4 & H5 & H6).
      done.
  - destruct (passes W fuel src dst _ _ _ _ _) as [[[|] st1]|] eqn:Hp; [| |done].
    + intros (H1 & H2 & H3)%rootCopy_globals.
      destruct (passes_globals _ _ _ _ _ _ _ _ _ _ Hp) as (H4 & H5 & H6).
      repeat split; congruence.
    + intros [= <- <-].
      destruct (passes_globals _ _ _ _ _ _ _ _ _ _ Hp) as (H4 & H5 & H6).
      done.
Qed.

Lemma stage_status fuel c src dst st code st' :
  stage W fuel c src dst st = Some (code, st') →
  code = 0 ∨ (code = 1 ∧ ∃ st0 l, st' = log st0 l ∧ isDiagnostic l = true).
Proof.
  unfold stage.
  destruct (if isFlex c then _ else _) as [[[tags enforceMain] vendorDir] st0].
  destruct (passes W fuel src dst _ _ _ _ _) as [[[|] st1]|] eqn:Hp; [| |done].
  - apply rootCopy_status.
  - intros [= <- <-]. right. split; [done|]. by eapply passes_failed.
Qed.


(** C4 (amended): in every run that ends, [skipFiles] is what it was at
    process start, and so is [skippedPackages] unless the manifest was
    decoded and asks for the Flexible mode; in that case [main] has set
    the entry of [appengine] to [false], once, before the first pass,
    and the map has not changed otherwise. *)
Theorem main_globals fuel args st code st' :
  main W fuel args st = Some (code, st') →
  skipFilesVar st' = skipFilesVar st ∧
  skippedPackages st' =
    match manifestOf W args st with
    | Some c =>
        if isFlex c then <["appengine" := false]> (skippedPackages st)
        else skippedPackages st
    | None => skippedPackages st
    end.
Proof.
  unfold main, manifestOf.
  destruct args as [|configPath [|dst [|? ?]]]; try by intros [= <- <-].
  destruct (ioutil_ReadFile W (fs st) configPath) as [contents|e];
    [|by intros [= <- <-]].
  destruct (yaml_Unmarshal W contents) as [c|e]; [|by intros [= <- <-]].
  intros Hstage.
  by destruct (stage_globals _ _ _ _ _ _ _ Hstage) as (_ & ? & ?).
Qed.


End StagerFacts.

(** * The program on concrete inputs *)

(** Closes an equation between closed terms by evaluation. *)
Ltac by_vm :=
  lazymatch goal with
  | |- ?l = ?r => vm_cast_no_check (@eq_refl _ r)
  end.

(** Closes a decidable closed proposition by evaluation. *)
Ltac decide_vm := apply (bool_decide_unpack _); vm_cast_no_check I.

(** A run is determined by its first component and the state read off
    it. *)
Lemma stateOf_run {A : Type} {W : World} (r : option (A * state W))
    (default : state W) (a : A) :
  fst <$> r = Some a → r = Some (a, stateOf r default).
Proof. destruct r as [[a' st]|]; simpl; [|done]. by intros [= ->]. Qed.

(** Closes [r = Some (a, stateOf r default)] by evaluating the first
    component of [r]. *)
Ltac by_run r default a :=
  let H := fresh in
  assert (fst <$> r = Some a) as H by by_vm;
  exact_no_check (stateOf_run r default a H).

(** Case analysis on membership in an explicit list. *)
Ltac elems :=
  repeat match goal with
         | H : _ ∈ [] |- _ => by apply elem_of_nil in H
         | H : _ ∈ _ :: _ |- _ => apply elem_of_cons in H as [->|H]
         end.

Section SampleGraph.

Local Abbreviation disk0 := (Mem.sampleDisk Mem.standardYaml).
Local Abbreviation import0 := (Graphs.Import Mem.index disk0).
Local Abbreviation reach0 :=
  (reachable import0 skippedPackages_init Graphs.appDir Mem.appPkg).

Lemma sample_skips_fmt :
  isSkipped skippedPackages_init (Graphs.edge "fmt" "app") = true.
Proof. by_vm. Qed.

Lemma sample_skips_strings :
  isSkipped skippedPackages_init (Graphs.edge "strings" "example.com/lib") = true.
Proof. by_vm. Qed.

Lemma sample_resolves_lib :
  import0 (path (Graphs.edge "example.com/lib" "app"))
          (fromDir (Graphs.edge "example.com/lib" "app")) = Ok Mem.libPkg.
Proof. by_vm. Qed.

(** The import edges of the sample application. *)
Lemma sample_reachable i : reach0 i ↔ i ∈ Graphs.sampleEdges.
Proof.
  split.
  - intros Hi. induction Hi as [p Hp|j pkg p Hj IH Hsk Hr Hp].
    + change (p ∈ ["fmt"; "example.com/lib"]) in Hp. elems; repeat constructor.
    + unfold Graphs.sampleEdges in IH. elems.
      * rewrite sample_skips_fmt in Hsk. done.
      * rewrite sample_resolves_lib in Hr. injection Hr as <-.
        change (p ∈ ["strings"]) in Hp. elems. repeat constructor.
      * rewrite sample_skips_strings in Hsk. done.
  - assert (reach0 (Graphs.edge "example.com/lib" "app")) as Hlib.
    { apply (reachable_root _ _ _ Mem.appPkg "example.com/lib").
      repeat constructor. }
    unfold Graphs.sampleEdges. intros Hi. elems.
    + apply (reachable_root _ _ _ Mem.appPkg "fmt"). repeat constructor.
    + exact Hlib.
    + apply (reachable_import _ _ _ _ _ Mem.libPkg "strings" Hlib);
        [by_vm|exact sample_resolves_lib|repeat constructor].
Qed.

Lemma sample_pass :
  Runs.samplePass = Some (Ok [Mem.libPkg], loopOf Runs.samplePass).
Proof. by_vm. Qed.

Lemma broken_pass :
  Runs.brokenPass
  = Some (Err Mem.noPackage, loopOf Runs.brokenPass).
Proof. by_vm. Qed.

Lemma broken_reachable i :
  i ∈ Edges.broken ↔
  reachable (Graphs.Import Graphs.brokenIndex Graphs.brokenDisk)
            skippedPackages_init Graphs.appDir Graphs.brokenRoot i ∧
  isSkipped skippedPackages_init i = false.
Proof.
  split.
  - unfold Edges.broken. intros Hi. elems.
    + split; [|by_vm].
      apply (reachable_root _ _ _ Graphs.brokenRoot "missing/a").
      repeat constructor.
    + split; [|by_vm].
      apply (reachable_root _ _ _ Graphs.brokenRoot "missing/b").
      repeat constructor.
  - intros [Hi _]. induction Hi as [p Hp|j pkg p Hj IH Hsk Hr Hp].
    + change (p ∈ ["missing/a"; "missing/b"]) in Hp. elems; repeat constructor.
    + unfold Edges.broken in IH. elems.
      * assert (Graphs.Import Graphs.brokenIndex Graphs.brokenDisk
                  (path (Graphs.edge "missing/a" "app"))
                  (fromDir (Graphs.edge "missing/a" "app"))
                = Err Mem.noPackage) as E by by_vm.
        rewrite E in Hr. done.
      * assert (Graphs.Import Graphs.brokenIndex Graphs.brokenDisk
                  (path (Graphs.edge "missing/b" "app"))
                  (fromDir (Graphs.edge "missing/b" "app"))
                = Err Mem.noPackage) as E by by_vm.
        rewrite E in Hr. done.
Qed.

(** C5, counterexample: the sample application has three distinct
    reachable (importPath, originDirectory) pairs, and its analysis
    makes one resolution attempt, the two imports of standard packages
    being skipped; and a pass that fails on its first import has made one
    attempt, although two distinct pairs are reachable and not skipped. *)
Lemma attempts_fewer_than_reachable :
  (NoDup Graphs.sampleEdges ∧
   (∀ i, i ∈ Graphs.sampleEdges ↔ reach0 i) ∧
   Runs.samplePass = Some (Ok [Mem.libPkg], loopOf Runs.samplePass) ∧
   length Graphs.sampleEdges = 3 ∧
   length (attempts (loopOf Runs.samplePass)) = 1) ∧
  (NoDup Edges.broken ∧
   (∀ i, i ∈ Edges.broken ↔
         reachable (Graphs.Import Graphs.brokenIndex Graphs.brokenDisk)
                   skippedPackages_init Graphs.appDir Graphs.brokenRoot i ∧
         isSkipped skippedPackages_init i = false) ∧
   Runs.brokenPass = Some (Err Mem.noPackage, loopOf Runs.brokenPass) ∧
   length Edges.broken = 2 ∧
   length (attempts (loopOf Runs.brokenPass)) = 1).
Proof.
  split.
  - split; [decide_vm|].
    split; [intros i; symmetry; apply sample_reachable|].
    split; [exact sample_pass|]. split; by_vm.
  - split; [decide_vm|].
    split; [exact broken_reachable|].
    split; [exact broken_pass|]. split; by_vm.
Qed.

(** C5, witness: the sample application. *)
Lemma analyze_attempts_exact_witness :
  NoDup (attempts (loopOf Runs.samplePass)) ∧
  (∀ i, is_Some (visited (loopOf Runs.samplePass) !! i)
        ↔ i ∈ attempts (loopOf Runs.samplePass)) ∧
  (∀ i, i ∈ attempts (loopOf Runs.samplePass) →
        reach0 i ∧ isSkipped skippedPackages_init i = false) ∧
  (∀ pkgs U, Ok [Mem.libPkg] = Ok pkgs → NoDup U →
     (∀ i, i ∈ U ↔ reach0 i ∧ isSkipped skippedPackages_init i = false) →
     length (attempts (loopOf Runs.samplePass)) = length U).
Proof.
  assert (Mem.Abs Graphs.appDir = Ok Graphs.appDir) as Habs by by_vm.
  assert (Graphs.ImportDir Mem.index disk0 Graphs.appDir = Ok Mem.appPkg)
    as Hroot by by_vm.
  exact (analyze_attempts_exact Mem.Abs Mem.Join
           (Graphs.ImportDir Mem.index disk0) import0
           skippedPackages_init 10 Graphs.appDir false Graphs.appDir Mem.appPkg
           (Ok [Mem.libPkg]) (loopOf Runs.samplePass) Habs Hroot sample_pass).
Defined.

(** C10, witness: the sample application; its output is the one package
    it imports from outside the standard library, not the application's
    own package. *)
Lemma analyze_output_from_imports_witness :
  (∀ pkg, pkg ∈ [Mem.libPkg] →
     ∃ importer d p,
       p ∈ Imports importer ∧ import0 p d = Ok pkg ∧
       map_get skippedPackages_init (firstPart p) = false ∧
       ((importer = Mem.appPkg ∧ d = Graphs.appDir) ∨
        (d = Dir importer ∧
         ∃ j, reach0 j ∧ isSkipped skippedPackages_init j = false ∧
              import0 (path j) (fromDir j) = Ok importer))) ∧
  ((∀ p, p ∈ Imports Mem.appPkg →
         map_get skippedPackages_init (firstPart p) = true) →
   [Mem.libPkg] = []).
Proof.
  assert (Mem.Abs Graphs.appDir = Ok Graphs.appDir) as Habs by by_vm.
  assert (Graphs.ImportDir Mem.index disk0 Graphs.appDir = Ok Mem.appPkg)
    as Hroot by by_vm.
  exact (analyze_output_from_imports Mem.Abs Mem.Join
           (Graphs.ImportDir Mem.index disk0) import0
           skippedPackages_init 10 Graphs.appDir false Graphs.appDir Mem.appPkg
           [Mem.libPkg] (loopOf Runs.samplePass) Habs Hroot sample_pass).
Defined.

(** C9, witness: the directory of [example.com/lib], whose package is
    named [lib], analysed with the entry-point check on. *)
Lemma analyze_not_main_witness :
  analyze Mem.Abs Mem.Join (Graphs.ImportDir Mem.index disk0) import0
          skippedPackages_init 10 "/gopath/src/example.com/lib" true
  = Some (Err (NotMainError (Name Mem.libPkg))) ∧
  ∃ s, analyze_run Mem.Abs Mem.Join (Graphs.ImportDir Mem.index disk0) import0
                   skippedPackages_init 10 "/gopath/src/example.com/lib" true
       = Some (Err (NotMainError (Name Mem.libPkg)), s) ∧
       attempts s = [] ∧ packages s = [] ∧ visited s = ∅ ∧ imports s = [].
Proof.
  assert (Mem.Abs "/gopath/src/example.com/lib"
          = Ok "/gopath/src/example.com/lib") as Habs by by_vm.
  assert (Graphs.ImportDir Mem.index disk0 "/gopath/src/example.com/lib"
          = Ok Mem.libPkg) as Hroot by by_vm.
  assert (IsCommand Mem.libPkg = false) as Hcmd by by_vm.
  exact (analyze_not_main Mem.Abs Mem.Join (Graphs.ImportDir Mem.index disk0)
           import0 skippedPackages_init 10 "/gopath/src/example.com/lib"
           "/gopath/src/example.com/lib" Mem.libPkg Habs Hroot Hcmd).
Defined.

End SampleGraph.

Section CycleGraph.

Local Abbreviation cycleImport :=
  (Graphs.Import Graphs.cycleIndex Graphs.cycleDisk).
Local Abbreviation cycleReach :=
  (reachable cycleImport skippedPackages_init Graphs.appDir Graphs.cycleRoot).

Lemma cycle_resolves_a from :
  cycleImport (path (Graphs.edge "a" from)) (fromDir (Graphs.edge "a" from))
  = Ok Graphs.cycleA.
Proof. by_vm. Qed.

Lemma cycle_resolves_b from :
  cycleImport (path (Graphs.edge "b" from)) (fromDir (Graphs.edge "b" from))
  = Ok Graphs.cycleB.
Proof. by_vm. Qed.

Lemma cycle_reachable i : cycleReach i → i ∈ Graphs.cycleEdges.
Proof.
  unfold Graphs.cycleEdges. rewrite elem_of_list_to_set.
  intros Hi. induction Hi as [p Hp|j pkg p Hj IH Hsk Hr Hp].
  - change (p ∈ ["a"]) in Hp. elems. repeat constructor.
  - elems.
    + rewrite cycle_resolves_a in Hr. injection Hr as <-.
      change (p ∈ ["b"]) in Hp. elems. repeat constructor.
    + rewrite cycle_resolves_b in Hr. injection Hr as <-.
      change (p ∈ ["a"]) in Hp. elems. repeat constructor.
    + rewrite cycle_resolves_a in Hr. injection Hr as <-.
      change (p ∈ ["b"]) in Hp. elems. repeat constructor.
Qed.

Lemma cycle_resolves i :
  cycleReach i → isSkipped skippedPackages_init i = false →
  is_ok (cycleImport (path i) (fromDir i)) = true.
Proof.
  intros Hi%cycle_reachable _. unfold Graphs.cycleEdges in Hi.
  rewrite elem_of_list_to_set in Hi.
  elems; by rewrite ?cycle_resolves_a, ?cycle_resolves_b.
Qed.


(** The cycle, evaluated: both packages, once each, in discovery
    order. *)
Example analyze_cycle :
  analyze Mem.Abs Mem.Join
          (Graphs.ImportDir Graphs.cycleIndex Graphs.cycleDisk)
          cycleImport skippedPackages_init 5 Graphs.appDir true
  = Some (Ok [Graphs.cycleA; Graphs.cycleB]).
Proof. by_vm. Qed.

End CycleGraph.

Section DiamondGraph.

Local Abbreviation diamondImport :=
  (Graphs.Import Graphs.diamondIndex Graphs.diamondDisk).

Lemma diamond_pass :
  Runs.diamondPass
  = Some (Ok [Graphs.diamondA; Graphs.diamondB; Graphs.diamondC],
          loopOf Runs.diamondPass).
Proof. by_vm. Qed.

(** C7, witness: the root imports [a] and [b], and both import [c]. *)
Lemma analyze_diamond_once_witness :
  NoDup (map (pkgKey Mem.Join)
             [Graphs.diamondA; Graphs.diamondB; Graphs.diamondC]) ∧
  length (filter (λ p, pkgKey Mem.Join p = pkgKey Mem.Join Graphs.diamondC)
                 [Graphs.diamondA; Graphs.diamondB; Graphs.diamondC]) = 1.
Proof.
  assert (Mem.Abs Graphs.appDir = Ok Graphs.appDir) as Habs by by_vm.
  assert (Graphs.ImportDir Graphs.diamondIndex Graphs.diamondDisk Graphs.appDir
          = Ok Graphs.diamondRoot) as Hroot by by_vm.
  assert ("a" ∈ Imports Graphs.diamondRoot) as Ha by repeat constructor.
  assert ("b" ∈ Imports Graphs.diamondRoot) as Hb by repeat constructor.
  assert ("c" ∈ Imports Graphs.diamondA) as HcA by repeat constructor.
  assert ("c" ∈ Imports Graphs.diamondB) as HcB by repeat constructor.
  assert (isSkipped skippedPackages_init
            {| path := "a"; fromDir := Graphs.appDir |} = false) as Hska by by_vm.
  assert (isSkipped skippedPackages_init
            {| path := "b"; fromDir := Graphs.appDir |} = false) as Hskb by by_vm.
  assert (map_get skippedPackages_init (firstPart "c") = false) as Hskc by by_vm.
  assert (diamondImport "a" Graphs.appDir = Ok Graphs.diamondA) as HA by by_vm.
  assert (diamondImport "b" Graphs.appDir = Ok Graphs.diamondB) as HB by by_vm.
  assert (diamondImport "c" (Dir Graphs.diamondA) = Ok Graphs.diamondC)
    as HC by by_vm.
  assert (diamondImport "c" (Dir Graphs.diamondB) = Ok Graphs.diamondC)
    as HC' by by_vm.
  exact (analyze_diamond_once Mem.Abs Mem.Join
           (Graphs.ImportDir Graphs.diamondIndex Graphs.diamondDisk)
           diamondImport skippedPackages_init 10 Graphs.appDir true
           Graphs.appDir Graphs.diamondRoot
           [Graphs.diamondA; Graphs.diamondB; Graphs.diamondC]
           (loopOf Runs.diamondPass) "a" "b" "c"
           Graphs.diamondA Graphs.diamondB Graphs.diamondC Graphs.diamondC
           Habs Hroot diamond_pass Ha Hb Hska Hskb HA HB HcA HcB Hskc HC HC'
           eq_refl).
Defined.

(** The diamond, evaluated with [a] discovered first and with [b]
    discovered first: [c] comes once, last, either way. *)
Example analyze_diamond_either_order :
  analyze Mem.Abs Mem.Join
          (Graphs.ImportDir Graphs.diamondIndex Graphs.diamondDisk)
          diamondImport skippedPackages_init 10 Graphs.appDir true
  = Some (Ok [Graphs.diamondA; Graphs.diamondB; Graphs.diamondC]) ∧
  analyze Mem.Abs Mem.Join
          (Graphs.ImportDir Graphs.diamondIndexSwapped Graphs.diamondDisk)
          (Graphs.Import Graphs.diamondIndexSwapped Graphs.diamondDisk)
          skippedPackages_init 10 Graphs.appDir true
  = Some (Ok [Graphs.diamondB; Graphs.diamondA; Graphs.diamondC]).
Proof. split; by_vm. Qed.

End DiamondGraph.

Section FlexibleApp.

Lemma appengine_pass :
  Runs.appenginePass
  = Some (Ok [Graphs.appenginePkg], loopOf Runs.appenginePass).
Proof. by_vm. Qed.

Lemma appengine_run :
  main Graphs.flexWorld 10 Mem.sampleArgs Graphs.flexStart
  = Some (0, Runs.appengineEnd).
Proof.
  by_run (main Graphs.flexWorld 10 Mem.sampleArgs Graphs.flexStart)
         Graphs.flexStart 0.
Qed.

(** C8, counterexample: for a Flexible application that imports
    [appengine], the analyzer's output holds the package [appengine],
    whose first segment is a key of the skip set, at process start (where
    it is mapped to [true]) and during the pass (where [main] has mapped
    it to [false]); the package is then vendored. *)
Lemma flexible_output_holds_appengine :
  isFlex {| VM := true; Env := "" |} = true ∧
  analyzeIn Graphs.flexWorld (set_skipped Graphs.flexStart Runs.flexSkip) 10
            Graphs.appDir (buildContext Graphs.flexWorld ["appenginevm"] 6) true
  = Some (Ok [Graphs.appenginePkg]) ∧
  firstPart (ImportPath Graphs.appenginePkg) = "appengine" ∧
  skippedPackages_init !! "appengine" = Some true ∧
  Runs.flexSkip !! "appengine" = Some false ∧
  main Graphs.flexWorld 10 Mem.sampleArgs Graphs.flexStart
  = Some (0, Runs.appengineEnd) ∧
  stderr Runs.appengineEnd =
    [ LogCopied "/gopath/src/appengine/api.go" "/out/_gopath/src/appengine/api.go";
      LogCopied "/gopath/src/appengine/api.go" "/out/_gopath/src/appengine/api.go";
      LogCopied "/gopath/src/appengine/api.go" "/out/_gopath/src/appengine/api.go";
      LogCopied "/gopath/src/app/app.yaml" "/out/app.yaml";
      LogCopied "/gopath/src/app/main.go" "/out/main.go" ].
Proof.
  split; [by_vm|]. split; [by_vm|]. split; [by_vm|]. split; [by_vm|].
  split; [by_vm|]. split; [exact appengine_run|by_vm].
Qed.

(** C8, witness: the same pass. *)
Lemma analyze_output_not_skipped_witness :
  (∃ i, i ∈ attempts (loopOf Runs.appenginePass) ∧
        Graphs.Import Graphs.flexIndex Graphs.flexDisk (path i) (fromDir i)
        = Ok Graphs.appenginePkg ∧
        map_get Runs.flexSkip (firstPart (path i)) = false) ∧
  ((∀ p d q, Graphs.Import Graphs.flexIndex Graphs.flexDisk p d = Ok q →
             ImportPath q = p) →
   map_get Runs.flexSkip (firstPart (ImportPath Graphs.appenginePkg)) = false).
Proof.
  assert (Graphs.appenginePkg ∈ [Graphs.appenginePkg]) as Hin
    by repeat constructor.
  exact (analyze_output_not_skipped Mem.Abs Mem.Join
           (Graphs.ImportDir Graphs.flexIndex Graphs.flexDisk)
           (Graphs.Import Graphs.flexIndex Graphs.flexDisk)
           Runs.flexSkip 10 Graphs.appDir true [Graphs.appenginePkg]
           (loopOf Runs.appenginePass) Graphs.appenginePkg appengine_pass Hin).
Defined.

Lemma flexible_run :
  main Mem.sampleWorld 10 Mem.sampleArgs Runs.flexibleStart
  = Some (0, Runs.flexibleEnd).
Proof.
  by_run (main Mem.sampleWorld 10 Mem.sampleArgs Runs.flexibleStart)
         Runs.flexibleStart 0.
Qed.

(** C4, counterexample: a run in Flexible mode ends with a
    [skippedPackages] that differs from the one at process start. *)
Lemma flexible_mode_mutates_skippedPackages :
  main Mem.sampleWorld 10 Mem.sampleArgs Runs.flexibleStart
  = Some (0, Runs.flexibleEnd) ∧
  skippedPackages Runs.flexibleStart !! "appengine" = Some true ∧
  skippedPackages Runs.flexibleEnd !! "appengine" = Some false ∧
  skippedPackages Runs.flexibleEnd ≠ skippedPackages Runs.flexibleStart.
Proof.
  assert (skippedPackages Runs.flexibleStart !! "appengine" = Some true)
    as Hstart by by_vm.
  assert (skippedPackages Runs.flexibleEnd !! "appengine" = Some false)
    as Hend by by_vm.
  split; [exact flexible_run|]. split; [exact Hstart|]. split; [exact Hend|].
  intros Heq. rewrite Heq, Hstart in Hend. discriminate Hend.
Qed.

(** C4, witness: the same run. *)
Lemma main_globals_witness :
  skipFilesVar Runs.flexibleEnd = skipFilesVar Runs.flexibleStart ∧
  skippedPackages Runs.flexibleEnd =
    match manifestOf Mem.sampleWorld Mem.sampleArgs Runs.flexibleStart with
    | Some c =>
        if isFlex c
        then <["appengine" := false]> (skippedPackages Runs.flexibleStart)
        else skippedPackages Runs.flexibleStart
    | None => skippedPackages Runs.flexibleStart
    end.
Proof.
  exact (main_globals Mem.sampleWorld 10 Mem.sampleArgs Runs.flexibleStart 0
           Runs.flexibleEnd flexible_run).
Defined.

End FlexibleApp.

Section StandardApp.

Lemma standard_run :
  main Mem.sampleWorld 10 Mem.sampleArgs Runs.standardStart
  = Some (0, Runs.standardEnd).
Proof.
  by_run (main Mem.sampleWorld 10 Mem.sampleArgs Runs.standardStart)
         Runs.standardStart 0.
Qed.

Lemma standard_passes :
  Runs.standardPasses = Some (true, Runs.standardAfterPasses).
Proof. by_run Runs.standardPasses Runs.standardStart true. Qed.

Lemma sample_bundled :
  bundle Mem.sampleWorld 10 "/gopath/src/app" "/out" "_gopath/src"
         [Mem.libPkg] Runs.standardStart = Some (None, Runs.bundled).
Proof.
  by_run (bundle Mem.sampleWorld 10 "/gopath/src/app" "/out" "_gopath/src"
                 [Mem.libPkg] Runs.standardStart)
         Runs.standardStart (@None error).
Qed.

Lemma sample_bundled_recursively :
  bundle_recursive_spec Mem.sampleWorld 10 "/gopath/src/app" "/out"
         "_gopath/src" [Mem.libPkg] Runs.standardStart
  = Some (None, Runs.bundledRecursively).
Proof.
  by_run (bundle_recursive_spec Mem.sampleWorld 10 "/gopath/src/app" "/out"
                 "_gopath/src" [Mem.libPkg] Runs.standardStart)
         Runs.standardStart (@None error).
Qed.


(** The same run, evaluated: the standard output is empty at exit, and
    the standard error holds the progress lines only. *)
Example main_success_prints_nothing :
  main Mem.sampleWorld 10 Mem.sampleArgs Runs.standardStart
  = Some (0, Runs.standardEnd) ∧
  stdout Runs.standardEnd = [] ∧
  stderr Runs.standardEnd =
    [ LogCopied "/gopath/src/example.com/lib/lib.go" "/out/example.com/lib/lib.go";
      LogCopied "/gopath/src/example.com/lib/lib.go" "/out/example.com/lib/lib.go";
      LogCopied "/gopath/src/example.com/lib/lib.go" "/out/example.com/lib/lib.go";
      LogCopied "/gopath/src/app/app.yaml" "/out/app.yaml";
      LogCopied "/gopath/src/app/main.go" "/out/main.go" ].
Proof. split; [exact standard_run|]. split; by_vm. Qed.



(** C2, counterexample: the Bundler copies [lib.go] of
    [example.com/lib] and leaves out [sub/sub.go], which a recursive
    copy of the package directory brings along. *)
Lemma bundle_skips_subdirectories :
  fs Runs.standardStart !! "/gopath/src/example.com/lib/sub/sub.go"
  = Some (Mem.File "package sub") ∧
  bundle Mem.sampleWorld 10 "/gopath/src/app" "/out" "_gopath/src"
         [Mem.libPkg] Runs.standardStart = Some (None, Runs.bundled) ∧
  bundle_recursive_spec Mem.sampleWorld 10 "/gopath/src/app" "/out"
         "_gopath/src" [Mem.libPkg] Runs.standardStart
  = Some (None, Runs.bundledRecursively) ∧
  fs Runs.bundled !! "/out/_gopath/src/example.com/lib/lib.go"
  = Some (Mem.File "package lib") ∧
  fs Runs.bundled !! "/out/_gopath/src/example.com/lib/sub/sub.go" = None ∧
  fs Runs.bundledRecursively !! "/out/_gopath/src/example.com/lib/sub/sub.go"
  = Some (Mem.File "package sub") ∧
  mkdirs Runs.bundled = ["/out/_gopath/src/example.com/lib"] ∧
  mkdirs Runs.bundledRecursively =
    ["/out/_gopath/src/example.com/lib";
     "/out/_gopath/src/example.com/lib/sub"].
Proof.
  split; [by_vm|]. split; [exact sample_bundled|].
  split; [exact sample_bundled_recursively|]. split; [by_vm|].
  split; [by_vm|]. split; [by_vm|]. split; by_vm.
Qed.

(** C2, witness: the Bundler on the one dependency of the sample
    application. *)
Lemma bundle_copies_flat_witness :
  ∃ r st',
    (∀ fuel, bundle Mem.sampleWorld (S fuel) "/gopath/src/app" "/out"
                    "_gopath/src" [Mem.libPkg] Runs.standardStart
             = Some (r, st')) ∧
    (∃ done, done `prefix_of` [Mem.libPkg] ∧
             mkdirs st' =
             mkdirs Runs.standardStart ++
             map (vendorTarget Mem.sampleWorld "/out" "_gopath/src") done) ∧
    (r = None →
     mkdirs st' =
     mkdirs Runs.standardStart ++
     map (vendorTarget Mem.sampleWorld "/out" "_gopath/src") [Mem.libPkg]) ∧
    (∀ pkg rest, [Mem.libPkg] = pkg :: rest →
       ∃ r1 st1,
         (∀ fuel, copyTree Mem.sampleWorld (S fuel) "/out"
                           (filepath_Join Mem.sampleWorld "_gopath/src"
                                          (ImportPath pkg))
                           (filepath_Join Mem.sampleWorld (SrcRoot pkg)
                                          (ImportPath pkg)) false
                           Runs.standardStart
                  = Some (r1, st1)) ∧
         mkdirs st1 =
         mkdirs Runs.standardStart ++
         [vendorTarget Mem.sampleWorld "/out" "_gopath/src" pkg]).
Proof.
  exact (bundle_copies_flat Mem.sampleWorld "/gopath/src/app" "/out"
           "_gopath/src" [Mem.libPkg] Runs.standardStart).
Defined.

End StandardApp.

(** * Further properties *)

(** ** Release tags and build contexts *)

Lemma releaseTags_inj (i j : nat) :
  "go1." +:+ pretty i = "go1." +:+ pretty j → i = j.
Proof.
  intros H. simpl in H. injection H as H. by apply (inj pretty).
Qed.

(** X1: [releaseTags n] lists, without repetition and in increasing order
    of the level, exactly the tags [go1.i] for [i] from 1 to [n]. *)
Theorem releaseTags_spec (n : nat) :
  length (releaseTags n) = n ∧
  NoDup (releaseTags n) ∧
  (∀ k tag, releaseTags n !! k = Some tag ↔
            (k < n)%nat ∧ tag = "go1." +:+ pretty (S k)) ∧
  (∀ tag, tag ∈ releaseTags n ↔
          ∃ i, (1 ≤ i ≤ n)%nat ∧ tag = "go1." +:+ pretty i).
Proof.
  unfold releaseTags. split; [by rewrite length_map, length_seq|].
  split; [|split].
  - apply NoDup_fmap_2_strong; [|apply NoDup_seq].
    intros i j _ _. apply releaseTags_inj.
  - intros k tag. change (map ?f ?l) with (f <$> l).
    rewrite list_lookup_fmap. split.
    + intros Hk. destruct (seq 1 n !! k) as [i|] eqn:Hi; [|done].
      apply lookup_seq in Hi as [-> Hlt]. simpl in Hk. injection Hk as <-.
      done.
    + intros [Hlt ->]. by rewrite (lookup_seq_lt 1 n k Hlt).
  - intros tag. change (map ?f ?l) with (f <$> l). rewrite list_elem_of_fmap.
    split.
    + intros (i & -> & Hi%elem_of_seq). exists i. split; [lia|done].
    + intros (i & Hi & ->). exists i. split; [done|]. apply elem_of_seq. lia.
Qed.

(** X2: the build contexts of two levels differ in their release tags
    only, and the tags of the lower level open the list of the tags of the
    higher one. *)
Theorem buildContext_levels (W : World) (tags : list string) (m n : nat) :
  (m ≤ n)%nat →
  ReleaseTags (buildContext W tags m) `prefix_of` ReleaseTags (buildContext W tags n) ∧
  BuildTags (buildContext W tags m) = tags ∧
  BuildTags (buildContext W tags n) = tags ∧
  GOOS (buildContext W tags m) = "linux" ∧
  GOARCH (buildContext W tags m) = "amd64" ∧
  GOROOT (buildContext W tags m) = "" ∧
  GOPATH (buildContext W tags m) = GOPATH (buildContext W tags n) ∧
  Compiler (buildContext W tags m) = Compiler (buildContext W tags n).
Proof.
  intros Hle. repeat split. simpl. unfold releaseTags.
  replace n with (m + (n - m))%nat by lia.
  rewrite seq_app, map_app. by apply prefix_app_r.
Qed.

(** X2, witness: levels 6 and 8 of [main]. *)
Lemma buildContext_levels_witness :
  ReleaseTags (buildContext Mem.sampleWorld ["appengine"] 6)
    `prefix_of` ReleaseTags (buildContext Mem.sampleWorld ["appengine"] 8) ∧
  BuildTags (buildContext Mem.sampleWorld ["appengine"] 6) = ["appengine"] ∧
  BuildTags (buildContext Mem.sampleWorld ["appengine"] 8) = ["appengine"] ∧
  GOOS (buildContext Mem.sampleWorld ["appengine"] 6) = "linux" ∧
  GOARCH (buildContext Mem.sampleWorld ["appengine"] 6) = "amd64" ∧
  GOROOT (buildContext Mem.sampleWorld ["appengine"] 6) = "" ∧
  GOPATH (buildContext Mem.sampleWorld ["appengine"] 6)
  = GOPATH (buildContext Mem.sampleWorld ["appengine"] 8) ∧
  Compiler (buildContext Mem.sampleWorld ["appengine"] 6)
  = Compiler (buildContext Mem.sampleWorld ["appengine"] 8).
Proof.
  apply (buildContext_levels Mem.sampleWorld ["appengine"] 6 8). lia.
Defined.

(** The release tags of level 8, evaluated. *)
Example releaseTags_8 :
  releaseTags 8
  = ["go1.1"; "go1.2"; "go1.3"; "go1.4"; "go1.5"; "go1.6"; "go1.7"; "go1.8"].
Proof. by_vm. Qed.

(** ** The first segment of an import path *)

Lemma firstPart_noSlash (s : string) : noSlash (firstPart s) = true.
Proof.
  induction s as [|c s IH]; [done|]. cbn [firstPart].
  destruct (Ascii.eqb c "/") eqn:Hc; [done|]. cbn [noSlash]. by rewrite Hc.
Qed.

(** X3: [firstPart s] holds no slash, and [s] is either [firstPart s]
    itself or [firstPart s] followed by a slash and more: it is the text
    before the first slash. *)
Theorem firstPart_splits (s : string) :
  noSlash (firstPart s) = true ∧
  ((s = firstPart s ∧ noSlash s = true) ∨
   ∃ rest, s = firstPart s +:+ "/" +:+ rest).
Proof.
  split; [apply firstPart_noSlash|].
  induction s as [|c s IH]; [by left|]. cbn [firstPart noSlash].
  destruct (Ascii.eqb c "/") eqn:Hc.
  - right. exists s. apply Ascii.eqb_eq in Hc as ->. done.
  - destruct IH as [[IH Hn]|[rest IH]].
    + left. split; [by rewrite <- IH|by rewrite Hn].
    + right. exists rest.
      change (String c s = String c (firstPart s +:+ "/" +:+ rest)).
      by rewrite <- IH.
Qed.

(** X4: on a text without slash, alone or followed by a slash and
    anything, [firstPart] returns that text: the segments after the first
    one play no part in the skip test. *)
Theorem firstPart_of_joined (a b : string) :
  noSlash a = true →
  firstPart a = a ∧ firstPart (a +:+ "/" +:+ b) = a.
Proof.
  induction a as [|c a IH]; [done|].
  change (String c a +:+ "/" +:+ b) with (String c (a +:+ "/" +:+ b)).
  cbn [noSlash firstPart].
  destruct (Ascii.eqb c "/"); [done|]. cbn [negb andb]. intros Ha.
  destruct (IH Ha) as [-> ->]. done.
Qed.

(** X4, witness: [net] and [net/http]. *)
Lemma firstPart_of_joined_witness :
  firstPart "net" = "net" ∧ firstPart ("net" +:+ "/" +:+ "http") = "net".
Proof. apply (firstPart_of_joined "net" "http"). reflexivity. Defined.

(** ** More on the dependency analyzer *)

Section AnalyzerMore.

Variable Abs : string → result string.
Variable Join : string → string → string.
Variable ImportDir : string → result Package.
Variable Import : string → string → result Package.
Variable skip : gmap string bool.

Local Abbreviation step := (analyze_step Join Import skip).
Local Abbreviation loop := (analyze_loop Join Import skip).
Local Abbreviation key := (pkgKey Join).
Local Abbreviation run := (analyze_run Abs Join ImportDir Import skip).

(** X5: the errors of [analyze] are: the failure of [filepath.Abs],
    wrapped with the directory; the failure of [ImportDir], wrapped with
    the directory; the entry-point error, under [enforceMain] only; and
    the error of [Import] for an edge that is reachable and not skipped,
    returned as it is, without the import path. *)
Theorem analyze_error_cases fuel dir enforceMain e :
  analyze Abs Join ImportDir Import skip fuel dir enforceMain = Some (Err e) →
  (∃ cause, Abs dir = Err cause ∧ e = AbsPathError dir cause) ∨
  (∃ abs cause,
     Abs dir = Ok abs ∧ ImportDir abs = Err cause ∧
     e = PackageForDirError dir cause) ∨
  (∃ abs root,
     Abs dir = Ok abs ∧ ImportDir abs = Ok root ∧ enforceMain = true ∧
     IsCommand root = false ∧ e = NotMainError (Name root)) ∨
  (∃ abs root i,
     Abs dir = Ok abs ∧ ImportDir abs = Ok root ∧
     reachable Import skip abs root i ∧ isSkipped skip i = false ∧
     Import (path i) (fromDir i) = Err e).
Proof.
  unfold analyze, analyze_run.
  destruct (Abs dir) as [abs|cause] eqn:Habs.
  2:{ intros [= <-]. left. by exists cause. }
  destruct (ImportDir abs) as [root|cause] eqn:Hroot.
  2:{ intros [= <-]. right; left. by exists abs, cause. }
  destruct enforceMain, (IsCommand root) eqn:Hcmd; simpl.
  2:{ intros [= <-]. right; right; left. by exists abs, root. }
  all: destruct (loop fuel (initState abs root)) as [[r s]|] eqn:Hloop; [|done].
  all: simpl; intros [= ->].
  all: destruct (loop_error Abs Join ImportDir Import skip abs root _ _ _ _
                   (sound_init Join Import skip abs root) Hloop)
         as (i & Hi & Hsk & Hr).
  all: right; right; right; by exists abs, root, i.
Qed.

Lemma keepFirst_snoc (l : list Package) (pkg : Package) :
  keepFirst key (l ++ [pkg]) =
  if decide (key pkg ∈ map key (keepFirst key l)) then keepFirst key l
  else keepFirst key l ++ [pkg].
Proof. unfold keepFirst. by rewrite foldl_snoc. Qed.

Lemma resolvedBy_snoc (l : list importFrom) (i : importFrom) :
  resolvedBy Import (l ++ [i]) =
  resolvedBy Import l ++
  match Import (path i) (fromDir i) with
  | Ok pkg => [pkg]
  | Err _ => []
  end.
Proof.
  unfold resolvedBy. rewrite omap_app. simpl.
  by destruct (Import (path i) (fromDir i)).
Qed.

Local Abbreviation ordered := (inOrder Join Import).

Lemma step_inOrder abs root s :
  sound Join Import skip abs root s → ordered s →
  match step s with
  | Finished s' | Next s' | Failed _ s' => ordered s'
  end.
Proof.
  unfold inOrder. intros Hs Hord.
  pose proof (step_cases Join Import skip s) as Hc.
  destruct (step s) as [s'|s'|e s'].
  - by destruct Hc as [_ ->].
  - destruct Hc as (i & rest & Hq & [[_ ->]|(Hv & Hsk & pkg & Hr & ->)]);
      [done|]. simpl.
    rewrite resolvedBy_snoc, Hr, keepFirst_snoc, <- Hord.
    destruct (visitedPackages s !! key pkg) as [b|] eqn:Hk.
    + rewrite decide_True; [done|].
      apply (sound_keys _ _ _ _ _ _ Hs). rewrite Hk. eauto.
    + rewrite decide_False; [done|].
      intros Hin. apply (sound_keys _ _ _ _ _ _ Hs) in Hin.
      rewrite Hk in Hin. by destruct Hin.
  - destruct Hc as (i & rest & Hq & Hv & Hsk & Hr & ->). simpl.
    by rewrite resolvedBy_snoc, Hr, app_nil_r.
Qed.

Lemma loop_inOrder abs root fuel s r s' :
  sound Join Import skip abs root s → ordered s →
  loop fuel s = Some (r, s') → ordered s'.
Proof.
  revert s. induction fuel as [|fuel IH]; intros s Hs Hord Hrun; [done|].
  simpl in Hrun.
  pose proof (step_sound Abs Join ImportDir Import skip abs root s Hs) as Hs'.
  pose proof (step_inOrder abs root s Hs Hord) as Hord'.
  destruct (step s) as [s1|s1|e s1].
  - by injection Hrun as <- <-.
  - by apply (IH s1).
  - by injection Hrun as <- <-.
Qed.

(** X6: the output of [analyze] is in discovery order: it lists the
    packages [Import] returned, in the order of the calls, each at the
    first place where its directory key occurs, later packages of the
    same key being dropped. *)
Theorem analyze_output_order fuel dir enforceMain r s :
  run fuel dir enforceMain = Some (r, s) →
  packages s = keepFirst key (resolvedBy Import (attempts s)) ∧
  (∀ pkgs, r = Ok pkgs →
           pkgs = keepFirst key (resolvedBy Import (attempts s))).
Proof.
  unfold analyze_run.
  destruct (Abs dir) as [abs|cause]; [|by intros [= <- <-]].
  destruct (ImportDir abs) as [root|cause]; [|by intros [= <- <-]].
  destruct (enforceMain && negb (IsCommand root)); [by intros [= <- <-]|].
  intros Hrun.
  assert (ordered s) as Hord.
  { by apply (loop_inOrder abs root _ _ _ _
                (sound_init Join Import skip abs root) eq_refl Hrun). }
  split; [exact Hord|]. intros pkgs ->.
  destruct (loop_sound Abs Join ImportDir Import skip abs root _ _ _ _
              (sound_init Join Import skip abs root) Hrun) as [_ Hok].
  destruct (Hok pkgs eq_refl) as (-> & _). exact Hord.
Qed.

End AnalyzerMore.

(** X5, witness: the root whose imports cannot be found. *)
Lemma analyze_error_cases_witness :
  (∃ cause, Mem.Abs Graphs.appDir = Err cause ∧
            Mem.noPackage = AbsPathError Graphs.appDir cause) ∨
  (∃ abs cause,
     Mem.Abs Graphs.appDir = Ok abs ∧
     Graphs.ImportDir Graphs.brokenIndex Graphs.brokenDisk abs = Err cause ∧
     Mem.noPackage = PackageForDirError Graphs.appDir cause) ∨
  (∃ abs root,
     Mem.Abs Graphs.appDir = Ok abs ∧
     Graphs.ImportDir Graphs.brokenIndex Graphs.brokenDisk abs = Ok root ∧
     false = true ∧ IsCommand root = false ∧
     Mem.noPackage = NotMainError (Name root)) ∨
  (∃ abs root i,
     Mem.Abs Graphs.appDir = Ok abs ∧
     Graphs.ImportDir Graphs.brokenIndex Graphs.brokenDisk abs = Ok root ∧
     reachable (Graphs.Import Graphs.brokenIndex Graphs.brokenDisk)
               skippedPackages_init abs root i ∧
     isSkipped skippedPackages_init i = false ∧
     Graphs.Import Graphs.brokenIndex Graphs.brokenDisk (path i) (fromDir i)
     = Err Mem.noPackage).
Proof.
  assert (analyze Mem.Abs Mem.Join
            (Graphs.ImportDir Graphs.brokenIndex Graphs.brokenDisk)
            (Graphs.Import Graphs.brokenIndex Graphs.brokenDisk)
            skippedPackages_init 10 Graphs.appDir false
          = Some (Err Mem.noPackage)) as Hrun by by_vm.
  exact (analyze_error_cases Mem.Abs Mem.Join
           (Graphs.ImportDir Graphs.brokenIndex Graphs.brokenDisk)
           (Graphs.Import Graphs.brokenIndex Graphs.brokenDisk)
           skippedPackages_init 10 Graphs.appDir false Mem.noPackage Hrun).
Defined.

(** X6, witness: the diamond; [c] is resolved twice and listed once,
    after [a] and [b]. *)
Lemma analyze_output_order_witness :
  packages (loopOf Runs.diamondPass) =
    keepFirst (pkgKey Mem.Join)
      (resolvedBy (Graphs.Import Graphs.diamondIndex Graphs.diamondDisk)
                  (attempts (loopOf Runs.diamondPass))) ∧
  (∀ pkgs,
     Ok [Graphs.diamondA; Graphs.diamondB; Graphs.diamondC] = Ok pkgs →
     pkgs = keepFirst (pkgKey Mem.Join)
              (resolvedBy (Graphs.Import Graphs.diamondIndex Graphs.diamondDisk)
                          (attempts (loopOf Runs.diamondPass)))).
Proof.
  exact (analyze_output_order Mem.Abs Mem.Join
           (Graphs.ImportDir Graphs.diamondIndex Graphs.diamondDisk)
           (Graphs.Import Graphs.diamondIndex Graphs.diamondDisk)
           skippedPackages_init 10 Graphs.appDir true
           (Ok [Graphs.diamondA; Graphs.diamondB; Graphs.diamondC])
           (loopOf Runs.diamondPass) diamond_pass).
Defined.

(** The diamond, evaluated: four calls to [Import], three packages. *)
Example diamond_resolutions :
  resolvedBy (Graphs.Import Graphs.diamondIndex Graphs.diamondDisk)
             (attempts (loopOf Runs.diamondPass))
  = [Graphs.diamondA; Graphs.diamondB; Graphs.diamondC; Graphs.diamondC] ∧
  packages (loopOf Runs.diamondPass)
  = [Graphs.diamondA; Graphs.diamondB; Graphs.diamondC].
Proof. split; by_vm. Qed.

(** ** The shape of what the tree copier prints and creates *)

Section TreeShape.

Variable W : World.
Variable skip : gmap string bool.
Variable dstRoot dstDir srcDir : string.
Variable recursive : bool.

Local Abbreviation Join := (filepath_Join W).
Local Abbreviation reached := (mirrored W skip dstDir srcDir).
Local Abbreviation line := (progressLine W skip dstRoot dstDir srcDir).
Local Abbreviation made := (createdDir W skip dstRoot dstDir srcDir).
Local Abbreviation ext := (grows W skip dstRoot dstDir srcDir).

Lemma grows_refl st : ext st st.
Proof.
  split; [done|]. exists [], []. rewrite !app_nil_r.
  repeat split; constructor.
Qed.

Lemma grows_trans st1 st2 st3 : ext st1 st2 → ext st2 st3 → ext st1 st3.
Proof.
  intros (Hs1 & l1 & d1 & He1 & Hm1 & Hl1 & Hd1)
         (Hs2 & l2 & d2 & He2 & Hm2 & Hl2 & Hd2).
  split; [congruence|]. exists (l1 ++ l2), (d1 ++ d2).
  rewrite He2, He1, Hm2, Hm1, <- !app_assoc.
  repeat split; try done; by apply Forall_app.
Qed.

Lemma grows_fs st d : ext st (set_fs st d).
Proof.
  split; [done|]. exists [], []. simpl. rewrite !app_nil_r.
  repeat split; constructor.
Qed.

Lemma grows_log st l : line l → ext st (log st l).
Proof.
  intros Hl. split; [done|]. exists [l], []. simpl. rewrite !app_nil_r.
  repeat split; by repeat constructor.
Qed.

Lemma grows_mkdir st p : made p → ext st (note_mkdir st p).
Proof.
  intros Hp. split; [done|]. exists [], [p]. simpl. rewrite !app_nil_r.
  repeat split; by repeat constructor.
Qed.

Lemma grows_mkdir_fs st d p : ext (note_mkdir st p) (note_mkdir (set_fs st d) p).
Proof.
  split; [done|]. exists [], []. simpl. rewrite !app_nil_r.
  repeat split; constructor.
Qed.

Lemma copyFile_grows dst src st r st' :
  copyFile W dstRoot dst src st = (r, st') → ext st st'.
Proof. apply (copyFile_preserves W ext grows_refl grows_fs). Qed.

Lemma copyEntries_grows recur s d entries :
  reached s d →
  (∀ n st r st',
     map_get skip n = false → skipFilesVar st = skip →
     recur (Join d n) (Join s n) st = Some (r, st') → ext st st') →
  ∀ st r st',
    skipFilesVar st = skip →
    copyEntries W recur dstRoot d s recursive entries st = Some (r, st') →
    ext st st'.
Proof.
  intros Hm Hrecur.
  induction entries as [|entry rest IH]; intros st r st' Hskip; simpl.
  - intros [= <- <-]. apply grows_refl.
  - rewrite Hskip. destruct (map_get skip (fiName entry)) eqn:Hn.
    { intros Hrun. apply IH in Hrun; [|done].
      eapply grows_trans; [|exact Hrun].
      apply grows_log. hnf. by exists s, d, (fiName entry). }
    destruct (if fiSymlink entry then _ else _) as [entry'|e];
      [|intros [= <- <-]; apply grows_refl].
    destruct (fiIsDir entry').
    + destruct (negb recursive); [by apply IH|].
      destruct (recur _ _ st) as [[[e|] st1]|] eqn:Hrec; [| |done].
      * intros [= <- <-]. by eapply Hrecur.
      * intros Hrun. pose proof (Hrecur _ _ _ _ Hn Hskip Hrec) as Hg.
        eapply grows_trans; [exact Hg|]. apply IH in Hrun; [done|].
        by rewrite (proj1 Hg).
    + destruct (copyFile W _ _ _ st) as [[e|] st1] eqn:Hcopy.
      * intros [= <- <-]. by eapply copyFile_grows.
      * intros Hrun. pose proof (copyFile_grows _ _ _ _ _ Hcopy) as Hg.
        apply IH in Hrun; [|simpl; by rewrite (proj1 Hg)].
        eapply grows_trans; [exact Hg|]. eapply grows_trans; [|exact Hrun].
        apply grows_log. hnf. by exists s, d, (fiName entry).
Qed.

Lemma copyTree_grows fuel s d st r st' :
  reached s d → skipFilesVar st = skip →
  copyTree W fuel dstRoot d s recursive st = Some (r, st') →
  ext (note_mkdir st (Join dstRoot d)) st'.
Proof.
  revert s d st r st'.
  induction fuel as [|fuel IH]; intros s d st r st' Hm Hskip; [done|]. simpl.
  destruct (os_MkdirAll W (fs st) _) as [d1 [e|]];
    [intros [= <- <-]; apply grows_mkdir_fs|].
  destruct (ioutil_ReadDir W d1 s) as [entries|e];
    [|intros [= <- <-]; apply grows_mkdir_fs].
  intros Hrun. eapply grows_trans; [apply (grows_mkdir_fs st d1)|].
  eapply copyEntries_grows; [exact Hm| |exact Hskip|exact Hrun].
  intros n st0 r0 st0' Hn Hskip0 Hrec.
  assert (reached (Join s n) (Join d n)) as Hsub by by apply mirrored_sub.
  eapply grows_trans; [|by eapply IH].
  apply grows_mkdir. by exists (Join s n), (Join d n).
Qed.

(** X7: what a [copyTree] call prints and creates, whether it succeeds
    or fails.  Its first [os.MkdirAll] is for the destination directory
    under [dstRoot]; every later one is for the mirror of a source
    directory it reached through names that are not in [skipFiles].  It
    prints one [skipping] line for a name of [skipFiles] in a directory
    reached and one [copied] line, from the source path to the mirror
    path under [dstRoot], for a name that is not skipped, and no other
    line.  [skipFiles] is as before. *)
Theorem copyTree_shape fuel st r st' :
  skipFilesVar st = skip →
  copyTree W fuel dstRoot dstDir srcDir recursive st = Some (r, st') →
  skipFilesVar st' = skip ∧
  ∃ lines dirs,
    stderr st' = stderr st ++ lines ∧
    mkdirs st' = mkdirs st ++ Join dstRoot dstDir :: dirs ∧
    Forall line lines ∧ Forall made dirs.
Proof.
  intros Hskip Hrun.
  destruct (copyTree_grows fuel srcDir dstDir st r st'
              (mirrored_top W skip dstDir srcDir) Hskip Hrun)
    as (Hs & lines & dirs & He & Hm & Hl & Hd).
  split; [by rewrite Hs|]. exists lines, dirs.
  simpl in He, Hm. rewrite <- app_assoc in Hm. done.
Qed.

End TreeShape.

Lemma sample_library_copied :
  copyTree Mem.sampleWorld 10 "/out" "." "/gopath/src/example.com" true
           Runs.standardStart
  = Some (None, libraryCopied).
Proof.
  by_run (copyTree Mem.sampleWorld 10 "/out" "." "/gopath/src/example.com"
                   true Runs.standardStart)
         Runs.standardStart (@None error).
Qed.

Lemma sample_skipFiles : skipFilesVar Runs.standardStart = skipFiles.
Proof. by_vm. Qed.

(** X7, witness: the recursive copy of [example.com] of the sample
    disk. *)
Lemma copyTree_shape_witness :
  skipFilesVar libraryCopied = skipFiles ∧
  ∃ lines dirs,
    stderr libraryCopied = stderr Runs.standardStart ++ lines ∧
    mkdirs libraryCopied =
      mkdirs Runs.standardStart ++
      filepath_Join Mem.sampleWorld "/out" "." :: dirs ∧
    Forall (progressLine Mem.sampleWorld skipFiles "/out" "."
                         "/gopath/src/example.com") lines ∧
    Forall (createdDir Mem.sampleWorld skipFiles "/out" "."
                       "/gopath/src/example.com") dirs.
Proof.
  exact (copyTree_shape Mem.sampleWorld skipFiles "/out" "."
           "/gopath/src/example.com" true 10 Runs.standardStart None
           libraryCopied sample_skipFiles sample_library_copied).
Defined.

(** The same copy, evaluated. *)
Example sample_library_copied_lines :
  stderr libraryCopied =
    [ LogCopied "/gopath/src/example.com/lib/lib.go" "/out/lib/lib.go";
      LogCopied "/gopath/src/example.com/lib/sub/sub.go" "/out/lib/sub/sub.go" ] ∧
  mkdirs libraryCopied = ["/out"; "/out/lib"; "/out/lib/sub"].
Proof. split; by_vm. Qed.

(** ** The errors of the tree copier and of the bundler *)

Section CopyErrors.

Variable W : World.

Local Abbreviation Join := (filepath_Join W).

Lemma copyFile_error dstRoot dst src st e st' :
  copyFile W dstRoot dst src st = (Some e, st') → isFileError e = true.
Proof.
  unfold copyFile. destruct (os_Open W (fs st) src); [by intros [= <- <-]|].
  destruct (os_Create W (fs st) _) as [d1 [e1|]]; [by intros [= <- <-]|].
  destruct (io_Copy W d1 _ src) as [d2 [e2|]]; [by intros [= <- <-]|].
  destruct (file_Close W d2 _) as [d3 [e3|]]; [by intros [= <- <-]|done].
Qed.

Lemma fileError_leaf e :
  isFileError e = true →
  isLibraryFailure (rootCause e) = true ∧ wrappers e = 0%nat.
Proof. by destruct e. Qed.

Lemma copyEntries_error recur dstRoot dstDir srcDir recursive entries n :
  (∀ d s st e st',
     recur d s st = Some (Some e, st') →
     isLibraryFailure (rootCause e) = true ∧ (wrappers e ≤ n)%nat) →
  ∀ st e st',
    copyEntries W recur dstRoot dstDir srcDir recursive entries st
    = Some (Some e, st') →
    isTreeError e = true ∧ isLibraryFailure (rootCause e) = true ∧
    (wrappers e ≤ S n)%nat.
Proof.
  intros Hrecur. induction entries as [|entry rest IH]; intros st e st'; simpl.
  - done.
  - destruct (map_get (skipFilesVar st) (fiName entry)); [apply IH|].
    destruct (if fiSymlink entry then _ else _) as [entry'|e0].
    2:{ intros [= <- <-]. simpl. repeat split; lia. }
    destruct (fiIsDir entry').
    + destruct (negb recursive); [apply IH|].
      destruct (recur _ _ st) as [[[e1|] st1]|] eqn:Hrec; [| |done].
      * intros [= <- <-]. destruct (Hrecur _ _ _ _ _ Hrec) as [Hc Hw].
        simpl. repeat split; [done|lia].
      * apply IH.
    + destruct (copyFile W _ _ _ st) as [[e1|] st1] eqn:Hcopy; [|apply IH].
      intros [= <- <-].
      destruct (fileError_leaf e1 (copyFile_error _ _ _ _ _ _ Hcopy))
        as [Hc Hw].
      simpl. repeat split; [done|lia].
Qed.

Lemma copyTree_error fuel dstRoot dstDir srcDir recursive st e st' :
  copyTree W fuel dstRoot dstDir srcDir recursive st = Some (Some e, st') →
  isTreeError e = true ∧ isLibraryFailure (rootCause e) = true ∧
  (wrappers e ≤ fuel)%nat.
Proof.
  revert dstDir srcDir st e st'.
  induction fuel as [|fuel IH]; intros dstDir srcDir st e st'; [done|]. simpl.
  destruct (os_MkdirAll W (fs st) _) as [d1 [e1|]].
  { intros [= <- <-]. simpl. repeat split; lia. }
  destruct (ioutil_ReadDir W d1 srcDir) as [entries|e1].
  2:{ intros [= <- <-]. simpl. repeat split; lia. }
  apply copyEntries_error. intros d s st0 e0 st0' Hrec.
  destruct (IH _ _ _ _ _ Hrec) as (_ & Hc & Hw). done.
Qed.

Lemma copyTree_flat_error fuel dstRoot dstDir srcDir st e st' :
  copyTree W fuel dstRoot dstDir srcDir false st = Some (Some e, st') →
  (wrappers e ≤ 1)%nat.
Proof.
  destruct fuel as [|fuel]; [done|]. simpl.
  destruct (os_MkdirAll W (fs st) _) as [d1 [e1|]].
  { intros [= <- <-]. simpl. lia. }
  destruct (ioutil_ReadDir W d1 srcDir) as [entries|e1].
  2:{ intros [= <- <-]. simpl. lia. }
  destruct (copyEntries_flat_total W dstRoot dstDir srcDir entries
              (note_mkdir (set_fs st d1) (Join dstRoot dstDir)))
    as (r0 & st0 & Hflat).
  rewrite Hflat. rewrite <- (Hflat (λ _ _ _, None)). intros Hrun.
  apply (copyEntries_error _ _ _ _ _ _ 0%nat) in Hrun as (_ & _ & Hw);
    [exact Hw|done].
Qed.

(** X8: an error of [copyTree] comes from one of its own [fmt.Errorf]
    sites, and what it wraps, below the [unable to copy dir] layers, is
    the failure of one library call: [MkdirAll], [ReadDir], [Stat],
    [Open], [Create], [Copy] or [Close].  A copy that is not recursive
    adds at most one such layer. *)
Theorem copyTree_error_cause fuel dstRoot dstDir srcDir recursive st e st' :
  copyTree W fuel dstRoot dstDir srcDir recursive st = Some (Some e, st') →
  isTreeError e = true ∧
  isLibraryFailure (rootCause e) = true ∧
  (recursive = false → (wrappers e ≤ 1)%nat).
Proof.
  intros Hrun.
  destruct (copyTree_error _ _ _ _ _ _ _ _ Hrun) as (Ht & Hc & _).
  repeat split; [done..|]. intros ->. by eapply copyTree_flat_error.
Qed.

(** X9: when [bundle] fails, the error names the source and the
    destination directory of one package of [deps], around an error of
    [copyTree]; the packages before it have been copied, the ones after
    it have not been looked at: the directories created are those of the
    packages up to the failing one, in order. *)
Theorem bundle_error_names_package fuel src dst vendorDir deps st e st' :
  bundle W fuel src dst vendorDir deps st = Some (Some e, st') →
  ∃ copied pkg rest cause,
    deps = copied ++ pkg :: rest ∧
    e = BundleCopyError (Join (SrcRoot pkg) (ImportPath pkg))
                        (Join vendorDir (ImportPath pkg)) cause ∧
    isTreeError cause = true ∧
    isLibraryFailure (rootCause e) = true ∧
    mkdirs st' =
    mkdirs st ++ map (vendorTarget W dst vendorDir) (copied ++ [pkg]).
Proof.
  revert st. induction deps as [|pkg rest IH]; intros st; [done|].
  rewrite bundle_cons.
  destruct (copyTree W fuel dst _ _ false st) as [[[e1|] st1]|] eqn:Hcopy;
    [| |done].
  - intros [= <- <-]. exists [], pkg, rest, e1.
    destruct (copyTree_error _ _ _ _ _ _ _ _ Hcopy) as (Ht & Hc & _).
    destruct fuel as [|fuel]; [done|].
    destruct (copyTree_flat W dst (Join vendorDir (ImportPath pkg))
                (Join (SrcRoot pkg) (ImportPath pkg)) st)
      as (r0 & st0 & Hflat & Hmk).
    rewrite Hflat in Hcopy. injection Hcopy as -> ->. done.
  - intros Hrun. destruct (IH _ Hrun) as (copied & p & more & cause & -> & -> & Ht & Hc & Hmk).
    exists (pkg :: copied), p, more, cause.
    destruct fuel as [|fuel]; [done|].
    destruct (copyTree_flat W dst (Join vendorDir (ImportPath pkg))
                (Join (SrcRoot pkg) (ImportPath pkg)) st)
      as (r0 & st0 & Hflat & Hmk0).
    rewrite Hflat in Hcopy. injection Hcopy as -> ->.
    rewrite Hmk, Hmk0, <- app_assoc. done.
Qed.

End CopyErrors.

Lemma sample_blocked_copy :
  copyTree Mem.sampleWorld 10 "/out" "." "/gopath/src/example.com" true
           blockedStart
  = Some (Some blockedError, blockedCopy).
Proof.
  by_run (copyTree Mem.sampleWorld 10 "/out" "." "/gopath/src/example.com"
                   true blockedStart)
         blockedStart (Some blockedError).
Qed.

(** X8, witness: the copy of [example.com] when a file stands where the
    directory [lib] is to be created. *)
Lemma copyTree_error_cause_witness :
  isTreeError blockedError = true ∧
  isLibraryFailure (rootCause blockedError) = true ∧
  (true = false → (wrappers blockedError ≤ 1)%nat).
Proof.
  exact (copyTree_error_cause Mem.sampleWorld 10 "/out" "."
           "/gopath/src/example.com" true blockedStart blockedError
           blockedCopy sample_blocked_copy).
Defined.

Lemma sample_ghost_bundled :
  bundle Mem.sampleWorld 10 "/gopath/src/app" "/out" ""
         [Mem.libPkg; ghostPkg; Mem.appPkg] Runs.standardStart
  = Some (Some ghostError, ghostBundled).
Proof.
  by_run (bundle Mem.sampleWorld 10 "/gopath/src/app" "/out" ""
                 [Mem.libPkg; ghostPkg; Mem.appPkg] Runs.standardStart)
         Runs.standardStart (Some ghostError).
Qed.

(** X9, witness: three packages, the second of which has no directory
    on the disk. *)
Lemma bundle_error_names_package_witness :
  ∃ copied pkg rest cause,
    [Mem.libPkg; ghostPkg; Mem.appPkg] = copied ++ pkg :: rest ∧
    ghostError =
      BundleCopyError
        (filepath_Join Mem.sampleWorld (SrcRoot pkg) (ImportPath pkg))
        (filepath_Join Mem.sampleWorld "" (ImportPath pkg)) cause ∧
    isTreeError cause = true ∧
    isLibraryFailure (rootCause ghostError) = true ∧
    mkdirs ghostBundled =
    mkdirs Runs.standardStart ++
    map (vendorTarget Mem.sampleWorld "/out" "") (copied ++ [pkg]).
Proof.
  exact (bundle_error_names_package Mem.sampleWorld 10 "/gopath/src/app"
           "/out" "" [Mem.libPkg; ghostPkg; Mem.appPkg] Runs.standardStart
           ghostError ghostBundled sample_ghost_bundled).
Defined.

(** The same run, evaluated: the directory of the missing package has
    been created under the output directory, the third package has not
    been reached. *)
Example sample_ghost_bundled_dirs :
  mkdirs ghostBundled = ["/out/example.com/lib"; "/out/example.com/ghost"] ∧
  stderr ghostBundled =
    [LogCopied "/gopath/src/example.com/lib/lib.go" "/out/example.com/lib/lib.go"].
Proof. split; by_vm. Qed.

(** ** The analyzer on a package that imports the standard library only *)

Section OnlySkipped.

Variable Abs : string → result string.
Variable Join : string → string → string.
Variable ImportDir : string → result Package.
Variable Import : string → string → result Package.
Variable skip : gmap string bool.

Local Abbreviation loop := (analyze_loop Join Import skip).

Lemma loop_only_skipped queue :
  ∀ fuel v vp pkgs att,
    Forall (λ i, isSkipped skip i = true) queue →
    (length queue < fuel)%nat →
    loop fuel {| imports := queue; visited := v; visitedPackages := vp;
                 packages := pkgs; attempts := att |}
    = Some (Ok pkgs, {| imports := []; visited := v; visitedPackages := vp;
                        packages := pkgs; attempts := att |}).
Proof.
  induction queue as [|i rest IH]; intros fuel v vp pkgs att Hall Hfuel;
    (destruct fuel as [|fuel]; [simpl in Hfuel; lia|]).
  - done.
  - apply Forall_cons in Hall as [Hi Hrest].
    cbn [analyze_loop analyze_step imports visited].
    destruct (v !! i); [|rewrite Hi]; cbn [visitedPackages packages attempts];
      apply IH; simpl in Hfuel; (done || lia).
Qed.

(** X10: when every import of the root package has its first segment
    mapped to [true] in [skippedPackages], [analyze] returns the empty
    list without a single call to [Import], as soon as the bound covers
    the imports of the root. *)
Theorem analyze_only_skipped fuel dir enforceMain abs root :
  Abs dir = Ok abs → ImportDir abs = Ok root →
  (enforceMain = true → IsCommand root = true) →
  (∀ p, p ∈ Imports root → map_get skip (firstPart p) = true) →
  (length (Imports root) < fuel)%nat →
  analyze_run Abs Join ImportDir Import skip fuel dir enforceMain
  = Some (Ok [], emptyState).
Proof.
  intros Habs Hroot Hmain Hskip Hfuel. unfold analyze_run.
  rewrite Habs, Hroot.
  assert (enforceMain && negb (IsCommand root) = false) as ->.
  { destruct enforceMain; [|done]. by rewrite Hmain. }
  apply loop_only_skipped.
  - apply Forall_forall. intros i [p [Hp ->]]%elem_of_edgesOf.
    by apply Hskip.
  - unfold edgesOf. by rewrite length_map.
Qed.

End OnlySkipped.

(** X10, witness: a root that imports [fmt], [net/http] and [os]. *)
Lemma analyze_only_skipped_witness :
  analyze_run Mem.Abs Mem.Join
    (Graphs.ImportDir plainIndex Graphs.brokenDisk)
    (Graphs.Import plainIndex Graphs.brokenDisk)
    skippedPackages_init 4 Graphs.appDir true
  = Some (Ok [], emptyState).
Proof.
  assert (Mem.Abs Graphs.appDir = Ok Graphs.appDir) as Habs by by_vm.
  assert (Graphs.ImportDir plainIndex Graphs.brokenDisk Graphs.appDir
          = Ok plainRoot) as Hroot by by_vm.
  assert (∀ p, p ∈ Imports plainRoot →
               map_get skippedPackages_init (firstPart p) = true) as Hskip.
  { intros p Hp. change (Imports plainRoot) with ["fmt"; "net/http"; "os"] in Hp.
    elems; by_vm. }
  apply (analyze_only_skipped Mem.Abs Mem.Join
           (Graphs.ImportDir plainIndex Graphs.brokenDisk)
           (Graphs.Import plainIndex Graphs.brokenDisk)
           skippedPackages_init 4 Graphs.appDir true Graphs.appDir plainRoot
           Habs Hroot (λ _, eq_refl) Hskip).
  simpl. lia.
Defined.

(** ** The orchestrator *)

Section MainMore.

Variable W : World.

Local Abbreviation Join := (filepath_Join W).


(** X12: in Flexible mode an application whose root package is not a
    command is turned down by the first pass, whatever the bound: status
    1, one line that carries the name of the package and the search
    path, nothing created on the disk; and [skippedPackages] has been
    changed all the same. *)
Theorem flexible_requires_main fuel c src dst st abs root :
  isFlex c = true →
  filepath_Abs W src = Ok abs →
  build_ImportDir W (buildContext W ["appenginevm"] 6) (fs st) abs = Ok root →
  IsCommand root = false →
  stage W fuel c src dst st =
  Some (1, log (set_skipped st (<["appengine" := false]> (skippedPackages st)))
               (LogFailedAnalyzing src (NotMainError (Name root))
                                   (build_Default_GOPATH W))).
Proof.
  intros Hflex Habs Hroot Hcmd. unfold stage. rewrite Hflex.
  unfold minorVersions. cbn [passes].
  unfold analyzeIn, analyze, analyze_run. cbn [fs set_skipped].
  rewrite Habs, Hroot, Hcmd. done.
Qed.

Lemma quiet_refl (st : state W) : quiet st st.
Proof. exists []. by rewrite app_nil_r. Qed.

Lemma quiet_trans (st1 st2 st3 : state W) :
  quiet st1 st2 → quiet st2 st3 → quiet st1 st3.
Proof.
  intros (l1 & He1 & Hl1) (l2 & He2 & Hl2). exists (l1 ++ l2).
  rewrite He2, He1, <- app_assoc. split; [done|by apply Forall_app].
Qed.

Lemma copyTree_quiet fuel dstRoot dstDir srcDir recursive st r st' :
  copyTree W fuel dstRoot dstDir srcDir recursive st = Some (r, st') →
  quiet st st' ∧ Join dstRoot dstDir ∈ mkdirs st'.
Proof.
  intros Hrun.
  destruct (copyTree_grows W (skipFilesVar st) dstRoot dstDir srcDir recursive
              fuel srcDir dstDir st r st'
              (mirrored_top W (skipFilesVar st) dstDir srcDir) eq_refl Hrun)
    as (_ & lines & dirs & He & Hm & Hl & _).
  simpl in He, Hm. split.
  - exists lines. split; [done|]. eapply Forall_impl; [exact Hl|].
    intros l. by destruct l.
  - rewrite Hm. apply elem_of_app. left. apply elem_of_app. right.
    by apply list_elem_of_singleton.
Qed.

Lemma bundle_quiet fuel src dst vendorDir deps st st' :
  bundle W fuel src dst vendorDir deps st = Some (None, st') → quiet st st'.
Proof.
  revert st. induction deps as [|pkg rest IH]; intros st.
  - intros [= <-]. apply quiet_refl.
  - rewrite bundle_cons.
    destruct (copyTree W fuel dst _ _ false st) as [[[e|] st1]|] eqn:Hcopy;
      [done| |done].
    intros Hrun. eapply quiet_trans; [|by apply IH].
    by destruct (copyTree_quiet _ _ _ _ _ _ _ _ Hcopy).
Qed.

Lemma passes_quiet fuel src dst tags enforceMain vendorDir levels st st' :
  passes W fuel src dst tags enforceMain vendorDir levels st = Some (true, st') →
  quiet st st'.
Proof.
  revert st. induction levels as [|mv rest IH]; intros st; simpl.
  - intros [= <-]. apply quiet_refl.
  - destruct (analyzeIn W st fuel src _ enforceMain) as [[deps|e]|];
      [|done|done].
    destruct (bundle W fuel src dst vendorDir deps st)
      as [[[e|] st1]|] eqn:Hb; [done| |done].
    intros Hrun. eapply quiet_trans; [by eapply bundle_quiet|by apply IH].
Qed.

Lemma passes_fate fuel src dst tags enforceMain vendorDir levels st b st' :
  passes W fuel src dst tags enforceMain vendorDir levels st = Some (b, st') →
  mkdirs st `prefix_of` mkdirs st'.
Proof.
  apply (passes_preserves W (λ st1 st2, mkdirs st1 `prefix_of` mkdirs st2)).
  - done.
  - intros st1 st2 st3 H12 H23. by etrans.
  - done.
  - done.
  - intros st0 d. by apply prefix_app_r.
Qed.


End MainMore.

Lemma sample_no_manifest :
  manifestOf Mem.sampleWorld ["/nowhere/app.yaml"; "/out"] Runs.standardStart
  = None.
Proof. by_vm. Qed.


(** X12, witness: a Flexible application whose root is package [app]. *)
Lemma flexible_requires_main_witness :
  stage libraryWorld 10 {| VM := true; Env := "" |} "/gopath/src/app" "/out"
        libraryStart =
  Some (1, log (set_skipped libraryStart
                  (<["appengine" := false]> (skippedPackages libraryStart)))
               (LogFailedAnalyzing "/gopath/src/app"
                  (NotMainError (Name libraryRoot))
                  (build_Default_GOPATH libraryWorld))).
Proof.
  assert (isFlex {| VM := true; Env := "" |} = true) as Hflex by by_vm.
  assert (filepath_Abs libraryWorld "/gopath/src/app" = Ok "/gopath/src/app")
    as Habs by by_vm.
  assert (build_ImportDir libraryWorld (buildContext libraryWorld ["appenginevm"] 6)
            (fs libraryStart) "/gopath/src/app" = Ok libraryRoot)
    as Hroot by by_vm.
  assert (IsCommand libraryRoot = false) as Hcmd by by_vm.
  exact (flexible_requires_main libraryWorld 10 {| VM := true; Env := "" |}
           "/gopath/src/app" "/out" libraryStart "/gopath/src/app" libraryRoot
           Hflex Habs Hroot Hcmd).
Defined.


(** ** [mergeMap] of package [templatehandler] *)

Section MergeMap.

Context {V : Type}.

Lemma foldl_insert_union (l : list (string * V)) (m : gmap string V) :
  NoDup l.*1 →
  foldl (λ out kv, <[kv.1 := kv.2]> out) m l = list_to_map l ∪ m.
Proof.
  revert m. induction l as [|[k v] l IH]; intros m Hnd.
  - simpl. by rewrite (left_id_L ∅ (∪)).
  - rewrite fmap_cons in Hnd. apply NoDup_cons in Hnd as [Hk Hnd].
    simpl. rewrite IH by done. rewrite <- insert_union_l. symmetry.
    apply insert_union_r. by apply not_elem_of_list_to_map_1.
Qed.

(** X14: [mergeMap] returns the entries of [in] and, for the keys [in]
    does not have, those of [base], whatever the orders in which the two
    [range] loops visit the maps; neither argument is modified (both are
    values here), and the result of a merge with an empty [in] is
    [base]. *)
Theorem mergeMap_any_order (base input : gmap string V)
    (baseOrder inOrder : list (string * V)) :
  baseOrder ≡ₚ map_to_list base →
  inOrder ≡ₚ map_to_list input →
  mergeMapIn baseOrder inOrder = input ∪ base ∧
  (∀ k, mergeMapIn baseOrder inOrder !! k =
        match input !! k with
        | Some v => Some v
        | None => base !! k
        end) ∧
  (input = ∅ → mergeMapIn baseOrder inOrder = base).
Proof.
  intros Hb Hi.
  assert (NoDup baseOrder.*1) as Hnb.
  { rewrite Hb. apply NoDup_fst_map_to_list. }
  assert (NoDup inOrder.*1) as Hni.
  { rewrite Hi. apply NoDup_fst_map_to_list. }
  assert (mergeMapIn baseOrder inOrder = input ∪ base) as Heq.
  { unfold mergeMapIn. rewrite !foldl_insert_union by done.
    rewrite (right_id_L ∅ (∪)).
    rewrite (list_to_map_proper _ _ Hnb Hb), (list_to_map_proper _ _ Hni Hi).
    by rewrite !list_to_map_to_list. }
  split; [done|]. split.
  - intros k. rewrite Heq, lookup_union.
    destruct (input !! k), (base !! k); done.
  - intros ->. by rewrite Heq, (left_id_L ∅ (∪)).
Qed.

End MergeMap.

(** X14, witness: a base with a title and a year, an input with another
    title, the loops in the order of [map_to_list]. *)
Lemma mergeMap_any_order_witness :
  mergeMapIn
    (map_to_list ({["title" := "Base"; "year" := "2016"]} : gmap string string))
    (map_to_list ({["title" := "Index"]} : gmap string string))
  = {["title" := "Index"]} ∪ {["title" := "Base"; "year" := "2016"]} ∧
  (∀ k,
     mergeMapIn
       (map_to_list ({["title" := "Base"; "year" := "2016"]} : gmap string string))
       (map_to_list ({["title" := "Index"]} : gmap string string)) !! k =
     match ({["title" := "Index"]} : gmap string string) !! k with
     | Some v => Some v
     | None => ({["title" := "Base"; "year" := "2016"]} : gmap string string) !! k
     end) ∧
  (({["title" := "Index"]} : gmap string string) = ∅ →
   mergeMapIn
     (map_to_list ({["title" := "Base"; "year" := "2016"]} : gmap string string))
     (map_to_list ({["title" := "Index"]} : gmap string string))
   = {["title" := "Base"; "year" := "2016"]}).
Proof.
  apply (mergeMap_any_order
           ({["title" := "Base"; "year" := "2016"]} : gmap string string)
           ({["title" := "Index"]} : gmap string string)); reflexivity.
Defined.

(** The same merge, evaluated. *)
Example mergeMap_title :
  mergeMapIn
    (map_to_list ({["title" := "Base"; "year" := "2016"]} : gmap string string))
    (map_to_list ({["title" := "Index"]} : gmap string string)) !! "title"
  = Some "Index".
Proof. by_vm. Qed.

(** ** Directories that hold skipped names only, and the bound *)

Section TreeMore.

Variable W : World.

Local Abbreviation Join := (filepath_Join W).

Lemma copyEntries_only_skipped recur dstRoot dstDir srcDir recursive entries :
  ∀ st,
    Forall (λ entry, map_get (skipFilesVar st) (fiName entry) = true) entries →
    copyEntries W recur dstRoot dstDir srcDir recursive entries st =
    Some (None,
          {| fs := fs st; stdout := stdout st;
             stderr := stderr st ++
                       map (λ entry, LogSkipping (Join srcDir (fiName entry)))
                           entries;
             skippedPackages := skippedPackages st;
             skipFilesVar := skipFilesVar st; mkdirs := mkdirs st |}).
Proof.
  induction entries as [|entry rest IH]; intros st Hall.
  - simpl. rewrite app_nil_r. by destruct st.
  - apply Forall_cons in Hall as [Hentry Hrest].
    cbn [copyEntries]. rewrite Hentry, IH by done.
    simpl. by rewrite <- app_assoc.
Qed.

(** X15: a source directory in which every name is in [skipFiles] gives
    an empty destination directory: [copyTree] succeeds at depth one,
    the disk is the one [os.MkdirAll] left, one [skipping] line is
    printed per entry, in the order of [ReadDir], and neither [Stat] nor
    [Open] is consulted, so that a dangling link of such a name does no
    harm. *)
Theorem copyTree_only_skipped fuel dstRoot dstDir srcDir recursive st entries :
  snd (os_MkdirAll W (fs st) (Join dstRoot dstDir)) = None →
  ioutil_ReadDir W (fst (os_MkdirAll W (fs st) (Join dstRoot dstDir))) srcDir
  = Ok entries →
  Forall (λ entry, map_get (skipFilesVar st) (fiName entry) = true) entries →
  copyTree W (S fuel) dstRoot dstDir srcDir recursive st =
  Some (None,
        {| fs := fst (os_MkdirAll W (fs st) (Join dstRoot dstDir));
           stdout := stdout st;
           stderr := stderr st ++
                     map (λ entry, LogSkipping (Join srcDir (fiName entry)))
                         entries;
           skippedPackages := skippedPackages st;
           skipFilesVar := skipFilesVar st;
           mkdirs := mkdirs st ++ [Join dstRoot dstDir] |}).
Proof.
  intros Hmk Hread Hall. cbn [copyTree].
  destruct (os_MkdirAll W (fs st) (Join dstRoot dstDir)) as [d1 [e|]];
    [done|]. simpl in Hread. cbn [fs note_mkdir set_fs]. rewrite Hread.
  by rewrite copyEntries_only_skipped.
Qed.

Lemma loop_bound (Jn : string → string → string)
    (Import : string → string → result Package) (skip : gmap string bool)
    fuel fuel' s r :
  analyze_loop Jn Import skip fuel s = Some r → (fuel ≤ fuel')%nat →
  analyze_loop Jn Import skip fuel' s = Some r.
Proof.
  revert fuel' s. induction fuel as [|fuel IH]; intros fuel' s; [done|].
  intros Hrun Hle. destruct fuel' as [|fuel']; [lia|]. simpl in *.
  destruct (analyze_step Jn Import skip s); [done| |done].
  apply IH; [done|lia].
Qed.

Lemma analyzeIn_bound fuel fuel' st dir ctx enforceMain r :
  analyzeIn W st fuel dir ctx enforceMain = Some r → (fuel ≤ fuel')%nat →
  analyzeIn W st fuel' dir ctx enforceMain = Some r.
Proof.
  unfold analyzeIn, analyze, analyze_run. intros Hrun Hle.
  destruct (filepath_Abs W dir) as [abs|e]; [|done].
  destruct (build_ImportDir W ctx (fs st) abs) as [root|e]; [|done].
  destruct (enforceMain && negb (IsCommand root)); [done|].
  destruct (analyze_loop _ _ _ fuel _) as [p|] eqn:Hloop; [|done].
  by rewrite (loop_bound _ _ _ _ _ _ _ Hloop Hle).
Qed.

Lemma copyEntries_bound recur recur' dstRoot dstDir srcDir recursive entries :
  (∀ d s st r, recur d s st = Some r → recur' d s st = Some r) →
  ∀ st r,
    copyEntries W recur dstRoot dstDir srcDir recursive entries st = Some r →
    copyEntries W recur' dstRoot dstDir srcDir recursive entries st = Some r.
Proof.
  intros Hrecur. induction entries as [|entry rest IH]; intros st r; [done|].
  simpl. destruct (map_get (skipFilesVar st) (fiName entry)); [apply IH|].
  destruct (if fiSymlink entry then _ else _) as [entry'|e]; [|done].
  destruct (fiIsDir entry').
  - destruct (negb recursive); [apply IH|].
    destruct (recur _ _ st) as [p|] eqn:Hrec; [|done].
    rewrite (Hrecur _ _ _ _ Hrec). destruct p as [[e|] st1]; [done|apply IH].
  - destruct (copyFile W _ _ _ st) as [[e|] st1]; [done|apply IH].
Qed.

Lemma copyTree_bound fuel fuel' dstRoot dstDir srcDir recursive st r :
  copyTree W fuel dstRoot dstDir srcDir recursive st = Some r →
  (fuel ≤ fuel')%nat →
  copyTree W fuel' dstRoot dstDir srcDir recursive st = Some r.
Proof.
  revert fuel' dstDir srcDir st r.
  induction fuel as [|fuel IH]; intros fuel' dstDir srcDir st r; [done|].
  intros Hrun Hle. destruct fuel' as [|fuel']; [lia|]. simpl in *.
  destruct (os_MkdirAll W (fs st) _) as [d1 [e|]]; [done|].
  destruct (ioutil_ReadDir W d1 srcDir) as [entries|e]; [|done].
  revert Hrun. apply copyEntries_bound.
  intros d s st0 r0 Hrec. apply (IH fuel'); [done|lia].
Qed.

Lemma bundle_bound fuel fuel' src dst vendorDir deps st r :
  bundle W fuel src dst vendorDir deps st = Some r → (fuel ≤ fuel')%nat →
  bundle W fuel' src dst vendorDir deps st = Some r.
Proof.
  intros Hrun Hle. revert st Hrun.
  induction deps as [|pkg rest IH]; intros st; [done|].
  rewrite !bundle_cons.
  destruct (copyTree W fuel dst _ _ false st) as [p|] eqn:Hcopy; [|done].
  rewrite (copyTree_bound _ _ _ _ _ _ _ _ Hcopy Hle).
  destruct p as [[e|] st1]; [done|apply IH].
Qed.

Lemma passes_bound fuel fuel' src dst tags enforceMain vendorDir levels st r :
  passes W fuel src dst tags enforceMain vendorDir levels st = Some r →
  (fuel ≤ fuel')%nat →
  passes W fuel' src dst tags enforceMain vendorDir levels st = Some r.
Proof.
  intros Hrun Hle. revert st Hrun.
  induction levels as [|mv rest IH]; intros st; [done|]. simpl.
  destruct (analyzeIn W st fuel src _ enforceMain) as [a|] eqn:Ha; [|done].
  rewrite (analyzeIn_bound _ _ _ _ _ _ _ Ha Hle).
  destruct a as [deps|e]; [|done].
  destruct (bundle W fuel src dst vendorDir deps st) as [p|] eqn:Hb; [|done].
  rewrite (bundle_bound _ _ _ _ _ _ _ _ Hb Hle).
  destruct p as [[e|] st1]; [done|apply IH].
Qed.


End TreeMore.

Lemma bare_mkdir :
  snd (os_MkdirAll Mem.sampleWorld (fs bareCheckout)
         (filepath_Join Mem.sampleWorld "/out" "repo")) = None.
Proof. by_vm. Qed.

Lemma bare_entries :
  ioutil_ReadDir Mem.sampleWorld
    (fst (os_MkdirAll Mem.sampleWorld (fs bareCheckout)
            (filepath_Join Mem.sampleWorld "/out" "repo"))) "/repo"
  = Ok [ {| fiName := ".git"; fiSymlink := false; fiIsDir := true |};
         {| fiName := ".travis.yml"; fiSymlink := false; fiIsDir := false |} ].
Proof. by_vm. Qed.

Lemma bare_skipped :
  Forall (λ entry, map_get (skipFilesVar bareCheckout) (fiName entry) = true)
         [ {| fiName := ".git"; fiSymlink := false; fiIsDir := true |};
           {| fiName := ".travis.yml"; fiSymlink := false; fiIsDir := false |} ].
Proof. repeat constructor; by_vm. Qed.

(** X15, witness: a checkout with [.git] and [.travis.yml] only. *)
Lemma copyTree_only_skipped_witness :
  copyTree Mem.sampleWorld 1 "/out" "repo" "/repo" true bareCheckout =
  Some (None,
        {| fs := fst (os_MkdirAll Mem.sampleWorld (fs bareCheckout)
                        (filepath_Join Mem.sampleWorld "/out" "repo"));
           stdout := stdout bareCheckout;
           stderr := stderr bareCheckout ++
                     map (λ entry, LogSkipping
                                     (filepath_Join Mem.sampleWorld "/repo"
                                                    (fiName entry)))
                         [ {| fiName := ".git"; fiSymlink := false;
                              fiIsDir := true |};
                           {| fiName := ".travis.yml"; fiSymlink := false;
                              fiIsDir := false |} ];
           skippedPackages := skippedPackages bareCheckout;
           skipFilesVar := skipFilesVar bareCheckout;
           mkdirs := mkdirs bareCheckout ++
                     [filepath_Join Mem.sampleWorld "/out" "repo"] |}).
Proof.
  exact (copyTree_only_skipped Mem.sampleWorld 0 "/out" "repo" "/repo" true
           bareCheckout _ bare_mkdir bare_entries bare_skipped).
Defined.

